(** * Maestro flow validator: a shallow embedding of [maestroValidator.ts]

    The validator parses a Maestro YAML flow, extracts command sequences,
    runs per-command and per-sequence rules and returns a list of
    diagnostics.  This file embeds the data model and the functions of the
    validator and proves the properties stated about them. *)

From Equations Require Import Equations.
From Stdlib Require Import ZArith Lia String Ascii DecimalString.
From stdpp Require Import base numbers option list sorting gmap.

Local Open Scope Z_scope.
Set Warnings "-register-all".

(** ** JavaScript strings

    A JavaScript string is a sequence of UTF-16 code units; [text.length]
    counts code units and [charCodeAt] reads one. *)

Abbreviation jsstring := (list N).

(** An ASCII literal as a JavaScript string. *)
Definition js (s : string) : jsstring :=
  List.map N_of_ascii (list_ascii_of_string s).

(** [s.length]. *)
Definition jsLength (s : jsstring) : Z := Z.of_nat (length s).

(** [`${n}`] for an integer-valued number. *)
Definition numberToString (n : Z) : jsstring :=
  js (NilZero.string_of_int (Z.to_int n)).

(** ECMAScript [WhiteSpace] and [LineTerminator] code points, the
    characters removed by [String.prototype.trim]. *)
Definition isWhiteSpace (c : N) : bool :=
  ((c =? 9) || (c =? 10) || (c =? 11) || (c =? 12) || (c =? 13) || (c =? 32)
   || (c =? 160) || (c =? 5760) || ((8192 <=? c) && (c <=? 8202))
   || (c =? 8232) || (c =? 8233) || (c =? 8239) || (c =? 8287)
   || (c =? 12288) || (c =? 65279))%N.

Fixpoint trimStart (s : jsstring) : jsstring :=
  match s with
  | c :: rest => if isWhiteSpace c then trimStart rest else s
  | [] => []
  end.

Definition trimEnd (s : jsstring) : jsstring := rev (trimStart (rev s)).

Definition trim (s : jsstring) : jsstring := trimEnd (trimStart s).

(** [s.startsWith(p)] and [s.includes(p)]. *)
Fixpoint startsWith (s p : jsstring) : bool :=
  match p, s with
  | [], _ => true
  | _ :: _, [] => false
  | a :: p', b :: s' => (a =? b)%N && startsWith s' p'
  end.

Fixpoint includes (s p : jsstring) : bool :=
  startsWith s p ||
  match s with
  | [] => false
  | _ :: s' => includes s' p
  end.

(** ** Positions and ranges of the editor API *)

Module vscode.

Record Position := mkPosition { line : Z; character : Z }.

Record Range := mkRange { start : Position; end_ : Position }.

Definition isBefore (a b : Position) : bool :=
  (line a <? line b) || ((line a =? line b) && (character a <? character b)).

(** [new vscode.Range(start, end)]: the constructor orders its arguments. *)
Definition newRange (s e : Position) : Range :=
  if isBefore s e then mkRange s e else mkRange e s.

End vscode.

(** ** Position index *)

(** The scan of [computeLineOffsets]: [i] is the index of the head of the
    remaining text. *)
Fixpoint scanLineFeeds (text : jsstring) (i : Z) : list Z :=
  match text with
  | [] => []
  | c :: rest =>
      if (c =? 10)%N then (i + 1) :: scanLineFeeds rest (i + 1)
      else scanLineFeeds rest (i + 1)
  end.

Definition computeLineOffsets (text : jsstring) : list Z :=
  0 :: scanLineFeeds text 0.

(** [lineOffsets[i]].  The binary search below only reads indices between
    [low] and [high], which stay inside the array. *)
Definition lineStartAt (lineOffsets : list Z) (i : Z) : Z :=
  default 0 (lineOffsets !! Z.to_nat i).

(** [mid + 1 < lineOffsets.length ? lineOffsets[mid + 1] : +Infinity];
    [None] stands for [+Infinity]. *)
Definition nextLineStartAt (lineOffsets : list Z) (i : Z) : option Z :=
  if i + 1 <? Z.of_nat (length lineOffsets)
  then Some (lineStartAt lineOffsets (i + 1)) else None.

Inductive Probe := GoLeft | GoRight | Here.

Definition probe (offset : Z) (lineOffsets : list Z) (mid : Z) : Probe :=
  if offset <? lineStartAt lineOffsets mid then GoLeft
  else match nextLineStartAt lineOffsets mid with
       | Some nxt => if offset >=? nxt then GoRight else Here
       | None => Here
       end.

(** [(low + high) >> 1]; the operands are array indices, far below the
    32-bit range on which [>>] works. *)
Definition midpoint (low high : Z) : Z := Z.shiftr (low + high) 1.

(** The [while (low <= high)] loop of [offsetToPosition]; [None] when the
    loop ends without returning. *)
Equations? searchLine (offset : Z) (lineOffsets : list Z) (low high : Z)
  : option vscode.Position by wf (Z.to_nat (high - low + 1)) lt :=
  searchLine offset lineOffsets low high with Z_le_gt_dec low high := {
    | right _ := None
    | left Hle with probe offset lineOffsets (midpoint low high) := {
        | GoLeft := searchLine offset lineOffsets low (midpoint low high - 1)
        | GoRight := searchLine offset lineOffsets (midpoint low high + 1) high
        | Here := Some (vscode.mkPosition (midpoint low high)
                          (offset - lineStartAt lineOffsets (midpoint low high))) } }.
Proof.
  all: unfold midpoint; rewrite Z.shiftr_div_pow2 by lia; change (2 ^ 1) with 2.
  - assert ((low + high) / 2 <= high) by (apply Z.div_le_upper_bound; lia). lia.
  - assert (low <= (low + high) / 2) by (apply Z.div_le_lower_bound; lia). lia.
Qed.

Definition offsetToPosition (offset : Z) (lineOffsets : list Z) : vscode.Position :=
  if offset <? 0 then vscode.mkPosition 0 0
  else
    match searchLine offset lineOffsets 0 (Z.of_nat (length lineOffsets) - 1) with
    | Some p => p
    | None =>
        let lastLineIndex := Z.of_nat (length lineOffsets) - 1 in
        let lastLineStart := lineStartAt lineOffsets lastLineIndex in
        vscode.mkPosition lastLineIndex (Z.max 0 (offset - lastLineStart))
    end.

(** ** YAML document trees

    The nodes of the [yaml] library that the validator inspects.  A scalar
    carries a JavaScript value; a map keeps its pairs in source order (and
    may hold a key twice: the parser reports that and keeps both pairs); a
    node's [range] holds the start and value-end offsets when present. *)

Inductive ScalarValue :=
| VString (s : jsstring)
| VNumber (n : Z)
| VBoolean (b : bool)
| VNull.

Inductive Node :=
| Scalar (value : ScalarValue) (range : option (Z * Z))
| YAMLMap (items : list (option Node * option Node)) (range : option (Z * Z))
| YAMLSeq (items : list (option Node)) (range : option (Z * Z))
| Alias (source : jsstring) (range : option (Z * Z)).

Abbreviation Pair := (option Node * option Node)%type.

Definition nodeRange (n : Node) : option (Z * Z) :=
  match n with
  | Scalar _ r | YAMLMap _ r | YAMLSeq _ r | Alias _ r => r
  end.

Record YAMLParseError := mkYAMLParseError {
  err_pos : option (Z * Z);
  err_source : option Node;
  err_message : jsstring }.

Record Document := mkDocument {
  errors : list YAMLParseError;
  contents : option Node }.

(** [typeof v === "string" && v.trim().length > 0]. *)
Definition isNonBlankString (v : ScalarValue) : bool :=
  match v with
  | VString s => 0 <? jsLength (trim s)
  | _ => false
  end.

(** ** Validation results, commands and rule context *)

Inductive ValidationLevel := Error | Warning.

Record ValidationResult := mkValidationResult {
  level : ValidationLevel;
  message : jsstring;
  range : vscode.Range;
  command : option jsstring;
  line : Z }.

Record MaestroCommand := mkMaestroCommand {
  name : jsstring;
  nameNode : option Node;
  valueNode : option Node }.

Record Uri := mkUri { scheme : jsstring; fsPath : jsstring }.

Record RuleContext := mkRuleContext {
  text : jsstring;
  uri : Uri;
  lineOffsets : list Z }.

Definition KNOWN_COMMANDS : gset jsstring :=
  list_to_set (List.map js
    [ "tapOn"; "longPressOn"; "assertVisible"; "assertNotVisible";
      "assertTrue"; "assertFalse"; "assertThat"; "launchApp"; "inputText";
      "clearInput"; "eraseText"; "scroll"; "swipe"; "scrollUntilVisible";
      "scrollToIndex"; "scrollUntil"; "pressKey"; "hideKeyboard";
      "waitForVisible"; "waitForNotVisible"; "waitForAnimationToEnd";
      "runScript"; "runFlow"; "runCommand"; "takeScreenshot"; "openLink";
      "back"; "stopApp"; "copyTextFrom"; "pasteText"; "extendState";
      "evalScript"; "conditional"; "repeat" ]%string).

Definition NAV_OR_WAIT_COMMANDS : gset jsstring :=
  list_to_set (List.map js
    [ "tapOn"; "scroll"; "swipe"; "scrollUntilVisible"; "scrollToIndex";
      "scrollUntil"; "launchApp"; "runFlow"; "openLink"; "back"; "pressKey";
      "waitForVisible"; "waitForNotVisible"; "waitForAnimationToEnd";
      "repeat"; "conditional" ]%string).

(** ** Command extraction *)

(** The body of the [forEach] of [extractCommandsFromSequence]: the command
    pushed for one item, if any. *)
Definition commandOfItem (item : option Node) : option MaestroCommand :=
  match item with
  | None => None
  | Some (Scalar scalarValue r) =>
      match scalarValue with
      | VString s =>
          if 0 <? jsLength (trim s)
          then Some (mkMaestroCommand s (Some (Scalar scalarValue r)) None)
          else None
      | _ => None
      end
  | Some (YAMLMap items _) =>
      match items with
      | [] => None
      | (keyNode, valueNode) :: _ =>
          match keyNode with
          | Some (Scalar (VString keyValue) kr) =>
              if 0 <? jsLength (trim keyValue)
              then Some (mkMaestroCommand keyValue
                           (Some (Scalar (VString keyValue) kr)) valueNode)
              else None
          | _ => None
          end
      end
  | Some _ => None
  end.

Definition extractCommandsFromSequence (items : list (option Node))
  : list MaestroCommand :=
  omap commandOfItem items.

(** [YAML.isScalar(keyNode) && typeof keyNode.value === "string" ?
    keyNode.value : undefined]. *)
Definition keyName (keyNode : option Node) : option jsstring :=
  match keyNode with
  | Some (Scalar (VString s) _) => Some s
  | _ => None
  end.

(** The sequence pushed by one pair of a map for its own [commands] key. *)
Definition commandsOfPair (keyNode valueNode : option Node)
  : list (list MaestroCommand) :=
  match keyName keyNode, valueNode with
  | Some k, Some (YAMLSeq items _) =>
      if bool_decide (k = js "commands") then
        let nested := extractCommandsFromSequence items in
        if 0 <? Z.of_nat (length nested) then [nested] else []
      else []
  | _, _ => []
  end.

(** [collectNestedCommandSequencesFromMap], returning the sequences it
    pushes, in order.  It is called on maps only; for every pair it looks
    at the pair's own [commands] key and recurses into the value when that
    value is a map. *)
Fixpoint collectNestedCommandSequencesFromMap (map : Node)
  : list (list MaestroCommand) :=
  match map with
  | YAMLMap items _ =>
      (fix pairs (l : list Pair) : list (list MaestroCommand) :=
         match l with
         | [] => []
         | (keyNode, valueNode) :: rest =>
             commandsOfPair keyNode valueNode
             ++ match valueNode with
                | Some v =>
                    match v with
                    | YAMLMap _ _ => collectNestedCommandSequencesFromMap v
                    | _ => []
                    end
                | None => []
                end
             ++ pairs rest
         end) items
  | _ => []
  end.

(** The sequences one document contributes to [commandSequences]. *)
Definition documentSequences (doc : Document) : list (list MaestroCommand) :=
  match contents doc with
  | None => []
  | Some root =>
      match root with
      | YAMLSeq items _ =>
          let commands := extractCommandsFromSequence items in
          if 0 <? Z.of_nat (length commands) then [commands] else []
      | _ => []
      end
      ++ match root with
         | YAMLMap _ _ => collectNestedCommandSequencesFromMap root
         | _ => []
         end
  end.

(** ** YAML helpers and the diagnostic builder *)

Definition rangeFromNode (node : option Node) (context : RuleContext)
  : vscode.Range :=
  match node ≫= nodeRange with
  | Some (r0, r1) =>
      let startOffset := Z.max 0 (Z.min (jsLength (text context)) r0) in
      let endOffset := Z.max startOffset (Z.min (jsLength (text context)) r1) in
      vscode.newRange (offsetToPosition startOffset (lineOffsets context))
                      (offsetToPosition endOffset (lineOffsets context))
  | None =>
      vscode.newRange (vscode.mkPosition 0 0) (vscode.mkPosition 0 0)
  end.

(** The double quote and the line feed inside message templates. *)
Definition dq : jsstring := [34%N].
Definition nl : jsstring := [10%N].

(** [commandName ? `${commandName} at line ${line}: ` : `Line ${line}: `];
    the empty string is falsy. *)
Definition messagePrefix (commandName : option jsstring) (line : Z) : jsstring :=
  match commandName with
  | Some (c :: cs) => (c :: cs) ++ js " at line " ++ numberToString line ++ js ": "
  | _ => js "Line " ++ numberToString line ++ js ": "
  end.

Definition createResult (context : RuleContext) (level : ValidationLevel)
    (rawMessage : jsstring) (node : option Node) (commandName : option jsstring)
  : ValidationResult :=
  let range := rangeFromNode node context in
  let line := vscode.line (vscode.start range) + 1 in
  {| level := level;
     message := messagePrefix commandName line ++ rawMessage;
     range := range;
     command := commandName;
     line := line |}.

Fixpoint findMapValueByKey (items : list Pair) (key : jsstring) : option Node :=
  match items with
  | [] => None
  | (k, v) :: rest =>
      match keyName k with
      | Some s => if bool_decide (s = key) then v else findMapValueByKey rest key
      | None => findMapValueByKey rest key
      end
  end.

(** [valueNode && YAML.isScalar(valueNode) && typeof valueNode.value ===
    "string" && valueNode.value.trim().length > 0]. *)
Definition isNonBlankStringNode (valueNode : option Node) : bool :=
  match valueNode with
  | Some (Scalar v _) => isNonBlankString v
  | _ => false
  end.

Fixpoint hasAnyStringKey (items : list Pair) (keys : list jsstring) : bool :=
  match keys with
  | [] => false
  | key :: rest =>
      if isNonBlankStringNode (findMapValueByKey items key) then true
      else hasAnyStringKey items rest
  end.

Definition extractRunFlowTargetPath (valueNode : Node) : option jsstring :=
  match valueNode with
  | Scalar (VString s) _ => Some s
  | YAMLMap items _ =>
      match findMapValueByKey items (js "flow") with
      | Some (Scalar (VString s) _) => Some s
      | _ => None
      end
  | _ => None
  end.

Definition errorRangeFromYamlError (err : YAMLParseError) (context : RuleContext)
  : vscode.Range :=
  match err_pos err with
  | Some (startOffset, _) =>
      let start := offsetToPosition startOffset (lineOffsets context) in
      vscode.newRange start start
  | None =>
      match err_source err with
      | Some source => rangeFromNode (Some source) context
      | None => vscode.newRange (vscode.mkPosition 0 0) (vscode.mkPosition 0 0)
      end
  end.

(** ** Level 1 command rules *)

Definition selectorKeys : list jsstring :=
  [js "text"; js "id"; js "accessibilityLabel"].

Definition validateTapOnSelector (command : MaestroCommand) (context : RuleContext)
  : list ValidationResult :=
  if negb (bool_decide (name command = js "tapOn")) then []
  else
    match valueNode command with
    | None =>
        [createResult context Error
           (js "tapOn without selector: add `text`, `id` or `accessibilityLabel` so Maestro knows what to tap.")
           (nameNode command) (Some (name command))]
    | Some (Scalar v r) =>
        if isNonBlankString v then []
        else
          [createResult context Error
             (js "tapOn expects a non-empty text selector when used as a string. Use `tapOn: "
              ++ dq ++ js "Login" ++ dq
              ++ js "` or provide an object with `text`, `id` or `accessibilityLabel`.")
             (Some (Scalar v r)) (Some (name command))]
    | Some (YAMLMap items r) =>
        let hasSelector := hasAnyStringKey items selectorKeys in
        if negb hasSelector then
          [createResult context Error
             (js "tapOn without selector: add at least one of `text`, `id` or `accessibilityLabel`.")
             (nameNode command) (Some (name command))]
        else []
    | Some other =>
        [createResult context Error
           (js "tapOn has an unsupported value. Use a string (treated as `text`) or an object with `text`, `id` or `accessibilityLabel`.")
           (Some other) (Some (name command))]
    end.

Definition validateInputTextValue (command : MaestroCommand) (context : RuleContext)
  : list ValidationResult :=
  if negb (bool_decide (name command = js "inputText")) then []
  else
    match valueNode command with
    | None =>
        [createResult context Error
           (js "inputText requires a text value. Use `inputText: "
            ++ dq ++ js "your text" ++ dq
            ++ js "` or an object with a `text` property.")
           (nameNode command) (Some (name command))]
    | Some (Scalar v r) =>
        match v with
        | VString _ => []
        | _ =>
            [createResult context Error
               (js "inputText value must be a string. Example: `inputText: "
                ++ dq ++ js "email@example.com" ++ dq ++ js "`.")
               (Some (Scalar v r)) (Some (name command))]
        end
    | Some (YAMLMap items r) =>
        match findMapValueByKey items (js "text") with
        | Some (Scalar (VString _) _) => []
        | _ =>
            [createResult context Error
               (js "inputText object must include a string `text` property. Example:"
                ++ nl ++ js "`inputText:" ++ nl ++ js "  text: "
                ++ dq ++ js "email@example.com" ++ dq ++ js "`.")
               (Some (YAMLMap items r)) (Some (name command))]
        end
    | Some other =>
        [createResult context Error
           (js "inputText has an unsupported value. Use a string or an object with a `text` property.")
           (Some other) (Some (name command))]
    end.

Definition validateConditionalHasCommands (command : MaestroCommand)
    (context : RuleContext) : list ValidationResult :=
  if negb (bool_decide (name command = js "conditional")) then []
  else
    match valueNode command with
    | Some (YAMLMap items _) =>
        match findMapValueByKey items (js "commands") with
        | Some (YAMLSeq (_ :: _) _) => []
        | _ =>
            [createResult context Error
               (js "conditional without `commands`: add a non-empty `commands` list of steps to run when the condition is met.")
               (nameNode command) (Some (name command))]
        end
    | _ =>
        [createResult context Error
           (js "conditional must be an object with a `commands` array. Example:"
            ++ nl ++ js "`conditional:" ++ nl ++ js "  when: ..." ++ nl
            ++ js "  commands:" ++ nl ++ js "    - tapOn: "
            ++ dq ++ js "..." ++ dq ++ js "`.")
           (nameNode command) (Some (name command))]
    end.

Definition validateUnknownCommandName (command : MaestroCommand)
    (context : RuleContext) : list ValidationResult :=
  if bool_decide (name command ∈ KNOWN_COMMANDS) then []
  else
    [createResult context Error
       (js "Unknown Maestro command " ++ dq ++ name command ++ dq
        ++ js ". Check for typos or replace with a supported command such as "
        ++ dq ++ js "tapOn" ++ dq ++ js " or " ++ dq ++ js "assertVisible" ++ dq
        ++ js ".")
       (nameNode command) (Some (name command))].

(** ** Level 2 rules *)

Definition validateTakeScreenshotHasName (command : MaestroCommand)
    (context : RuleContext) : list ValidationResult :=
  if negb (bool_decide (name command = js "takeScreenshot")) then []
  else
    match valueNode command with
    | None =>
        [createResult context Warning
           (js "takeScreenshot without a name. Provide a descriptive name so screenshots are easy to identify, e.g. `takeScreenshot: "
            ++ dq ++ js "login_screen" ++ dq ++ js "`.")
           (nameNode command) (Some (name command))]
    | Some (Scalar v r) =>
        if isNonBlankString v then []
        else
          [createResult context Warning
             (js "takeScreenshot should use a descriptive name string, e.g. `takeScreenshot: "
              ++ dq ++ js "login_screen" ++ dq ++ js "`.")
             (Some (Scalar v r)) (Some (name command))]
    | Some (YAMLMap items r) =>
        if isNonBlankStringNode (findMapValueByKey items (js "name")) then []
        else
          [createResult context Warning
             (js "takeScreenshot object should include a non-empty `name` so screenshots are easy to identify.")
             (Some (YAMLMap items r)) (Some (name command))]
    | Some other =>
        [createResult context Warning
           (js "takeScreenshot has an unexpected value. Use a string name or an object with a `name` property.")
           (Some other) (Some (name command))]
    end.

(** [a ?? b] on optional nodes. *)
Definition nullish (a b : option Node) : option Node :=
  match a with
  | Some n => Some n
  | None => b
  end.

Definition immediatelyAfterTapOnMessage : jsstring :=
  js "assertVisible is used immediately after tapOn without an explicit wait. Insert `waitForVisible` between them to reduce flaky tests.".

Definition withoutPriorNavigationMessage : jsstring :=
  js "assertVisible is used without a prior navigation or wait in this flow. Consider adding `tapOn`, `launchApp`, `scroll`, or `waitForVisible` before this assertion so it checks a meaningful UI state.".

(** The commands of one sequence are distinct objects, created one per item
    by [extractCommandsFromSequence]; the [Set<MaestroCommand>] of handled
    asserts, a set of object references, is therefore kept as the set of
    their positions in the sequence. *)
Abbreviation HandledAsserts := (gset nat).

(** One iteration of the loop of
    [validateAssertVisibleImmediatelyAfterTapOn], on the pair of [results]
    and [handledAsserts]. *)
Definition immediatelyAfterTapOnStep (sequence : list MaestroCommand)
    (context : RuleContext) (st : list ValidationResult * HandledAsserts)
    (i : nat) : list ValidationResult * HandledAsserts :=
  match sequence !! i, sequence !! (i + 1)%nat with
  | Some current, Some next =>
      if bool_decide (name current = js "tapOn")
         && bool_decide (name next = js "assertVisible")
      then (st.1 ++ [createResult context Warning immediatelyAfterTapOnMessage
                       (nullish (nameNode next) (nameNode current))
                       (Some (name next))],
            {[ (i + 1)%nat ]} ∪ st.2)
      else st
  | _, _ => st
  end.

(** [for (let i = 0; i < sequence.length - 1; i += 1)]. *)
Definition validateAssertVisibleImmediatelyAfterTapOn
    (sequence : list MaestroCommand) (context : RuleContext)
    (handledAsserts : HandledAsserts)
  : list ValidationResult * HandledAsserts :=
  foldl (immediatelyAfterTapOnStep sequence context) ([], handledAsserts)
        (seq 0 (length sequence - 1)).

(** The inner loop [for (let j = i - 1; j >= 0; j -= 1)], leaving with
    [true] at the first navigation or wait command found. *)
Fixpoint hasNavOrWaitBefore (sequence : list MaestroCommand) (i : nat) : bool :=
  match i with
  | O => false
  | S j =>
      match sequence !! j with
      | Some prev =>
          if bool_decide (name prev ∈ NAV_OR_WAIT_COMMANDS) then true
          else hasNavOrWaitBefore sequence j
      | None => hasNavOrWaitBefore sequence j
      end
  end.

(** The results pushed by iteration [i] of the outer loop of
    [validateAssertVisibleHasPriorNavigationOrWait]. *)
Definition priorNavigationStep (sequence : list MaestroCommand)
    (context : RuleContext) (handledAsserts : HandledAsserts) (i : nat)
  : list ValidationResult :=
  match sequence !! i with
  | Some cmd =>
      if negb (bool_decide (name cmd = js "assertVisible")) then []
      else if bool_decide (i ∈ handledAsserts) then []
      else if negb (hasNavOrWaitBefore sequence i) then
        [createResult context Warning withoutPriorNavigationMessage
           (nameNode cmd) (Some (name cmd))]
      else []
  | None => []
  end.

Definition validateAssertVisibleHasPriorNavigationOrWait
    (sequence : list MaestroCommand) (context : RuleContext)
    (handledAsserts : HandledAsserts) : list ValidationResult :=
  flat_map (priorNavigationStep sequence context handledAsserts)
           (seq 0 (length sequence)).

Definition duplicateStep (sequence : list MaestroCommand)
    (context : RuleContext) (i : nat) : list ValidationResult :=
  match sequence !! i, sequence !! (i + 1)%nat with
  | Some current, Some next =>
      if bool_decide (name current = name next) then
        [createResult context Warning
           (js "Duplicate sequential action: " ++ dq ++ name next ++ dq
            ++ js " is called twice in a row. Remove one of them or adjust the flow if this is intentional.")
           (nullish (nameNode next) (nameNode current)) (Some (name next))]
      else []
  | _, _ => []
  end.

Definition validateDuplicateSequentialActions (sequence : list MaestroCommand)
    (context : RuleContext) : list ValidationResult :=
  flat_map (duplicateStep sequence context) (seq 0 (length sequence - 1)).

(** The three sequence-level rules on one sequence, with its own fresh set
    of handled asserts. *)
Definition sequenceRules (context : RuleContext) (sequence : list MaestroCommand)
  : list ValidationResult :=
  let '(adjacent, handledAssertCommands) :=
    validateAssertVisibleImmediatelyAfterTapOn sequence context ∅ in
  adjacent
  ++ validateAssertVisibleHasPriorNavigationOrWait sequence context
       handledAssertCommands
  ++ validateDuplicateSequentialActions sequence context.

Definition emptyFileMessage : jsstring :=
  js "Empty Maestro flow: file contains no commands. Add at least one command, for example `launchApp`.".

Definition noCommandsMessage : jsstring :=
  js "Empty Maestro flow: no commands found after configuration. Add at least one command sequence starting with `- launchApp` or another action.".

(** The diagnostic pushed for one parse error of a document. *)
Definition parseErrorResult (context : RuleContext) (err : YAMLParseError)
  : ValidationResult :=
  let range := errorRangeFromYamlError err context in
  let line := vscode.line (vscode.start range) + 1 in
  {| level := Error;
     message := js "Line " ++ numberToString line ++ js ": YAML parse error "
                ++ [8211%N] ++ js " " ++ err_message err;
     range := range;
     command := None;
     line := line |}.

(** ** The validator, over its host

    The YAML parser, the [path] functions and the file-existence probe
    belong to the host; the validator is embedded over them. *)

Section Validator.

Variable parseAllDocuments : jsstring -> list Document.
Variable path_dirname : jsstring -> jsstring.
Variable path_isAbsolute : jsstring -> bool.
Variable path_resolve : jsstring -> jsstring -> jsstring.
Variable existsSync : jsstring -> bool.

Definition resolveRunFlowTarget (context : RuleContext) (targetPath : jsstring)
  : jsstring :=
  let documentDir := path_dirname (fsPath (uri context)) in
  if path_isAbsolute targetPath then targetPath
  else path_resolve documentDir targetPath.

Definition validateRunFlowFileExists (command : MaestroCommand)
    (context : RuleContext) : list ValidationResult :=
  if negb (bool_decide (name command = js "runFlow")) then []
  else if negb (bool_decide (scheme (uri context) = js "file")) then []
  else
    match valueNode command with
    | None => []
    | Some valueNode =>
        match extractRunFlowTargetPath valueNode with
        | None => []
        | Some [] => []
        | Some targetPath =>
            if includes targetPath (js "${") then []
            else if negb (existsSync (resolveRunFlowTarget context targetPath))
            then
              [createResult context Error
                 (js "runFlow references " ++ dq ++ targetPath ++ dq
                  ++ js " but the file does not exist. Check the path or create the referenced flow file.")
                 (Some valueNode) (Some (name command))]
            else []
        end
    end.

Definition commandRules (context : RuleContext) (command : MaestroCommand)
  : list ValidationResult :=
  validateTapOnSelector command context
  ++ validateInputTextValue command context
  ++ validateConditionalHasCommands command context
  ++ validateRunFlowFileExists command context
  ++ validateUnknownCommandName command context
  ++ validateTakeScreenshotHasName command context.

Definition validateMaestroFlow (text : jsstring) (uri : Uri)
  : list ValidationResult :=
  let context := mkRuleContext text uri (computeLineOffsets text) in
  if negb (0 <? jsLength (trim text)) then
    [createResult context Error emptyFileMessage None None]
  else
    let documents := parseAllDocuments text in
    let syntaxErrors :=
      flat_map (fun doc => List.map (parseErrorResult context) (errors doc))
               documents in
    let commandSequences := flat_map documentSequences documents in
    let allCommands := concat commandSequences in
    if Z.of_nat (length allCommands) =? 0 then
      syntaxErrors ++ [createResult context Error noCommandsMessage None None]
    else
      syntaxErrors
      ++ flat_map (commandRules context) allCommands
      ++ flat_map (sequenceRules context) commandSequences.

End Validator.

(** * Vocabulary of the properties *)

(** The line starts grow strictly with the line index. *)
Definition increasing (offs : list Z) : Prop :=
  ∀ (i j : nat) (si sj : Z),
    offs !! i = Some si → offs !! j = Some sj → (i < j)%nat → si < sj.

(** A diagnostic's [line] is the 0-based start line of its range plus 1. *)
Definition lineMatchesRange (d : ValidationResult) : Prop :=
  line d = vscode.line (vscode.start (range d)) + 1.

(** [bindsKey items key v]: looking [key] up in the pairs of a map yields
    the value [v] of the first pair whose key is the string [key]. *)
Inductive bindsKey : list Pair → jsstring → option Node → Prop :=
| binds_here k v rest key :
    keyName k = Some key → bindsKey ((k, v) :: rest) key v
| binds_later k v rest key w :
    keyName k ≠ Some key → bindsKey rest key w → bindsKey ((k, v) :: rest) key w.

(** The map holds a non-blank string under [key]. *)
Definition holdsNonBlankString (items : list Pair) (key : jsstring) : Prop :=
  ∃ s r, bindsKey items key (Some (Scalar (VString s) r)) ∧ trim s ≠ [].

(** [mapReachable root m]: the map [m] is [root] or is reached from it
    through values of maps that are maps themselves. *)
Inductive mapReachable : Node → Node → Prop :=
| reach_self items r : mapReachable (YAMLMap items r) (YAMLMap items r)
| reach_value items r k sub subr m :
    (k, Some (YAMLMap sub subr)) ∈ items →
    mapReachable (YAMLMap sub subr) m →
    mapReachable (YAMLMap items r) m.

(** The results pushed by iteration [i] of the adjacency loop. *)
Definition immediatelyAfterTapOnAt (sequence : list MaestroCommand)
    (context : RuleContext) (i : nat) : list ValidationResult :=
  (immediatelyAfterTapOnStep sequence context ([], ∅) i).1.

(** Position [i] holds a [tapOn] and position [i + 1] an [assertVisible]. *)
Definition tapOnThenAssertVisibleAt (sequence : list MaestroCommand) (i : nat)
  : Prop :=
  ∃ current next,
    sequence !! i = Some current ∧ sequence !! (i + 1)%nat = Some next
    ∧ name current = js "tapOn" ∧ name next = js "assertVisible".

(** The number of line feeds of a text. *)
Definition countLineFeeds (s : jsstring) : nat :=
  length (filter (λ c, c = 10%N) s).

(** Position [a] is at or before position [b]. *)
Definition positionLe (a b : vscode.Position) : Prop :=
  vscode.line a < vscode.line b
  ∨ (vscode.line a = vscode.line b ∧ vscode.character a <= vscode.character b).
(** ** Further sample commands *)

Module MoreSamples.

(** [- runFlow: login.yaml]. *)
Definition runMissingFlow : MaestroCommand :=
  mkMaestroCommand (js "runFlow")
    (Some (Scalar (VString (js "runFlow")) (Some (2, 9))))
    (Some (Scalar (VString (js "login.yaml")) (Some (11, 21)))).

End MoreSamples.
(** The number of places of a list of names where a name is followed by
    the same name. *)
Fixpoint adjacentRepeats (names : list jsstring) : nat :=
  match names with
  | a :: (b :: _) as rest =>
      (if bool_decide (a = b) then 1 else 0) + adjacentRepeats rest
  | _ => 0
  end.

(** The number of places of a list of names where [tapOn] is followed by
    [assertVisible]. *)
Fixpoint tapOnAssertPairs (names : list jsstring) : nat :=
  match names with
  | a :: (b :: _) as rest =>
      (if bool_decide (a = js "tapOn") && bool_decide (b = js "assertVisible")
       then 1 else 0) + tapOnAssertPairs rest
  | _ => 0
  end.
(** A document with its parse errors dropped. *)
Definition withoutErrors (doc : Document) : Document :=
  mkDocument [] (contents doc).

(** A diagnostic's message opens with its command name and line, or with
    its line alone when it has no command name. *)
Definition wellPrefixed (d : ValidationResult) : Prop :=
  match command d with
  | Some c =>
      c ≠ [] ∧ ∃ rest, message d
                       = c ++ js " at line " ++ numberToString (line d)
                         ++ js ": " ++ rest
  | None =>
      ∃ rest, message d = js "Line " ++ numberToString (line d) ++ js ": " ++ rest
  end.

(** ** Sample flows *)

Module Samples.

Definition flowUri : Uri := mkUri (js "file") (js "/flows/login.maestro.yaml").

Definition dirname (p : jsstring) : jsstring := js "/flows".
Definition isAbsolute (p : jsstring) : bool := startsWith p (js "/").
Definition resolve (dir p : jsstring) : jsstring := dir ++ js "/" ++ p.
Definition noFiles (p : jsstring) : bool := false.

(** The flow
<<
- conditional:
    commands:
      - tapOn
>>
    as the parser returns it: a list whose item is the map of the
    [conditional] command, with the [commands] list inside its value. *)
Definition nestedFlowText : jsstring :=
  js "- conditional:" ++ nl ++ js "    commands:" ++ nl ++ js "      - tapOn" ++ nl.

Definition nestedTapOn : Node := Scalar (VString (js "tapOn")) (Some (37, 42)).

Definition nestedCommandsList : Node := YAMLSeq [Some nestedTapOn] (Some (35, 43)).

Definition conditionalValue : Node :=
  YAMLMap [(Some (Scalar (VString (js "commands")) (Some (19, 27))),
            Some nestedCommandsList)] (Some (19, 43)).

Definition conditionalKey : Node := Scalar (VString (js "conditional")) (Some (2, 13)).

Definition nestedFlowRoot : Node :=
  YAMLSeq [Some (YAMLMap [(Some conditionalKey, Some conditionalValue)] (Some (2, 43)))]
          (Some (0, 43)).

Definition nestedFlow : Document := mkDocument [] (Some nestedFlowRoot).

(** The document
<<
conditional:
  commands:
    - repeat:
        commands:
          - tapOn
>>
    with a map as root and a [commands] list inside an item of another
    [commands] list. *)
Definition doublyNestedText : jsstring :=
  js "conditional:" ++ nl ++ js "  commands:" ++ nl ++ js "    - repeat:" ++ nl
  ++ js "        commands:" ++ nl ++ js "          - tapOn" ++ nl.

Definition innerTapOn : Node := Scalar (VString (js "tapOn")) (Some (69, 74)).

Definition repeatKey : Node := Scalar (VString (js "repeat")) (Some (31, 37)).

Definition repeatValue : Node :=
  YAMLMap [(Some (Scalar (VString (js "commands")) (Some (47, 55))),
            Some (YAMLSeq [Some innerTapOn] (Some (67, 75))))] (Some (47, 75)).

Definition doublyNestedRoot : Node :=
  YAMLMap
    [(Some (Scalar (VString (js "conditional")) (Some (0, 11))),
      Some (YAMLMap
              [(Some (Scalar (VString (js "commands")) (Some (15, 23))),
                Some (YAMLSeq
                        [Some (YAMLMap [(Some repeatKey, Some repeatValue)]
                                       (Some (31, 75)))]
                        (Some (29, 75))))]
              (Some (15, 75))))]
    (Some (0, 75)).

Definition doublyNested : Document := mkDocument [] (Some doublyNestedRoot).

(** The flow
<<
- tapOn
- assertVisible: a
>> *)
Definition tapThenAssertText : jsstring :=
  js "- tapOn" ++ nl ++ js "- assertVisible: a" ++ nl.

Definition tapThenAssertRoot : Node :=
  YAMLSeq [Some (Scalar (VString (js "tapOn")) (Some (2, 7)));
           Some (YAMLMap [(Some (Scalar (VString (js "assertVisible")) (Some (10, 23))),
                           Some (Scalar (VString (js "a")) (Some (25, 26))))]
                         (Some (10, 27)))]
          (Some (0, 27)).

Definition tapThenAssert : Document := mkDocument [] (Some tapThenAssertRoot).

Definition tapThenAssertSequence : list MaestroCommand :=
  [ mkMaestroCommand (js "tapOn")
      (Some (Scalar (VString (js "tapOn")) (Some (2, 7)))) None;
    mkMaestroCommand (js "assertVisible")
      (Some (Scalar (VString (js "assertVisible")) (Some (10, 23))))
      (Some (Scalar (VString (js "a")) (Some (25, 26)))) ].

(** The one-character text made of an opening square bracket, an
    unterminated flow sequence: the parser reports the missing closing
    bracket and returns the empty sequence as root. *)
Definition unterminatedText : jsstring := js "[".

Definition unterminated : Document :=
  mkDocument
    [mkYAMLParseError (Some (1, 2)) None (js "Flow sequence must end with a ]")]
    (Some (YAMLSeq [] (Some (0, 1)))).

(** The flow [appId: x]: configuration without any command. *)
Definition configOnlyText : jsstring := js "appId: x".

Definition configOnly : Document :=
  mkDocument []
    (Some (YAMLMap [(Some (Scalar (VString (js "appId")) (Some (0, 5))),
                     Some (Scalar (VString (js "x")) (Some (7, 8))))]
                   (Some (0, 8)))).

Definition tapThenAssertContext : RuleContext :=
  mkRuleContext tapThenAssertText flowUri (computeLineOffsets tapThenAssertText).

(** The warning expected on the [assertVisible] of [tapThenAssert]. *)
Definition adjacencyWarning : ValidationResult :=
  createResult tapThenAssertContext Warning immediatelyAfterTapOnMessage
    (Some (Scalar (VString (js "assertVisible")) (Some (10, 23))))
    (Some (js "assertVisible")).

(** [- runFlow: ${DIR}/login.yaml]. *)
Definition runDynamicFlow : MaestroCommand :=
  mkMaestroCommand (js "runFlow")
    (Some (Scalar (VString (js "runFlow")) (Some (2, 9))))
    (Some (Scalar (VString (js "${DIR}/login.yaml")) (Some (11, 28)))).

Definition validateWith (doc : Document) : jsstring → Uri → list ValidationResult :=
  validateMaestroFlow (λ _, [doc]) dirname isAbsolute resolve noFiles.

End Samples.

(** * Properties *)

(** ** Position index *)

Lemma midpoint_bounds low high :
  low <= high -> low <= midpoint low high <= high.
Proof.
  intros H. unfold midpoint. rewrite Z.shiftr_div_pow2 by lia.
  change (2 ^ 1) with 2. split.
  - apply Z.div_le_lower_bound; lia.
  - apply Z.div_le_upper_bound; lia.
Qed.

Example offsetToPosition_ex :
  offsetToPosition 5 (computeLineOffsets (js "ab" ++ [10%N] ++ js "cde")) = vscode.mkPosition 1 2.
Proof. reflexivity. Qed.

Lemma scanLineFeeds_elem (text : jsstring) (i o : Z) :
  o ∈ scanLineFeeds text i ↔
  ∃ k : nat, text !! k = Some 10%N ∧ o = i + Z.of_nat k + 1.
Proof.
  revert i. induction text as [|c rest IH]; intros i; simpl.
  - split; [intros H; inversion H | intros (k & Hk & _); destruct k; discriminate].
  - destruct (N.eqb_spec c 10) as [->|Hc].
    + rewrite elem_of_cons, IH. split.
      * intros [->|(k & Hk & ->)]; [exists 0%nat | exists (S k)]; split; auto; lia.
      * intros ([|k] & Hk & ->); [left; lia | right; exists k; split; auto; lia].
    + rewrite IH. split.
      * intros (k & Hk & ->). exists (S k). split; auto; lia.
      * intros ([|k] & Hk & ->); [simpl in Hk; congruence|].
        exists k. split; auto; lia.
Qed.

Lemma scanLineFeeds_gt (text : jsstring) (i : Z) (j : nat) (s : Z) :
  scanLineFeeds text i !! j = Some s → i < s.
Proof.
  intros H. assert (Hin : s ∈ scanLineFeeds text i) by (eapply list_elem_of_lookup_2; eauto).
  apply scanLineFeeds_elem in Hin as (k & _ & ->). lia.
Qed.

Lemma increasing_cons (a : Z) (l : list Z) :
  (∀ j s, l !! j = Some s → a < s) → increasing l → increasing (a :: l).
Proof.
  intros Hgt Hl [|i] [|j] si sj Hi Hj Hlt; simpl in *; try lia.
  - injection Hi as <-. eauto.
  - eapply Hl; eauto. lia.
Qed.

Lemma scanLineFeeds_increasing (text : jsstring) (i : Z) :
  increasing (scanLineFeeds text i).
Proof.
  revert i. induction text as [|c rest IH]; intros i; simpl.
  - intros a b sa sb Ha. destruct a; discriminate.
  - destruct (c =? 10)%N; [|apply IH].
    apply increasing_cons; [|apply IH].
    intros j s. apply scanLineFeeds_gt.
Qed.

Lemma computeLineOffsets_increasing (text : jsstring) :
  increasing (computeLineOffsets text).
Proof.
  apply increasing_cons; [|apply scanLineFeeds_increasing].
  intros j s. apply scanLineFeeds_gt.
Qed.

Lemma lineStartAt_lookup (offs : list Z) (m : Z) :
  0 <= m < Z.of_nat (length offs) →
  offs !! Z.to_nat m = Some (lineStartAt offs m).
Proof.
  intros Hm. unfold lineStartAt.
  destruct (offs !! Z.to_nat m) eqn:E; [reflexivity|].
  apply lookup_ge_None in E. lia.
Qed.

Lemma increasing_le (offs : list Z) (a b : Z) :
  increasing offs → 0 <= a → a <= b → b < Z.of_nat (length offs) →
  lineStartAt offs a <= lineStartAt offs b.
Proof.
  intros Hinc Ha Hab Hb.
  destruct (Z.eq_dec a b) as [->|Hne]; [lia|].
  pose proof (lineStartAt_lookup offs a ltac:(lia)) as Ea.
  pose proof (lineStartAt_lookup offs b ltac:(lia)) as Eb.
  pose proof (Hinc _ _ _ _ Ea Eb ltac:(lia)). lia.
Qed.

(** The loop finds the line of [offset]: it never falls through, and the
    line it returns starts at or before [offset] while the next one, if
    any, starts after it. *)
Lemma searchLine_spec (offset : Z) (offs : list Z) (low high : Z) :
  increasing offs →
  0 <= low < Z.of_nat (length offs) →
  low - 1 <= high < Z.of_nat (length offs) →
  lineStartAt offs low <= offset →
  (high + 1 < Z.of_nat (length offs) → offset < lineStartAt offs (high + 1)) →
  ∃ m, searchLine offset offs low high
       = Some (vscode.mkPosition m (offset - lineStartAt offs m))
     ∧ 0 <= m < Z.of_nat (length offs)
     ∧ lineStartAt offs m <= offset
     ∧ (m + 1 < Z.of_nat (length offs) → offset < lineStartAt offs (m + 1)).
Proof.
  intros Hinc.
  funelim (searchLine offset offs low high); intros Hlow Hhigh Hl Hh.
  - (* the loop ends: impossible *)
    exfalso.
    destruct (Z_lt_dec (high + 1) (Z.of_nat (length lineOffsets0))) as [Hin|Hout]; [|lia].
    pose proof (increasing_le lineOffsets0 (high + 1) low Hinc ltac:(lia) ltac:(lia) ltac:(lia)).
    specialize (Hh Hin). lia.
  - (* offset < lineStart *)
    pose proof (midpoint_bounds low high Hle) as Hm.
    unfold probe in Heq.
    destruct (Z.ltb_spec offset (lineStartAt lineOffsets0 (midpoint low high))) as [Hlt|Hge];
      [|destruct (nextLineStartAt _ _); [destruct (_ >=? _)|]; discriminate].
    apply H; auto; try lia.
    intros _. replace (midpoint low high - 1 + 1) with (midpoint low high) by lia. exact Hlt.
  - (* offset >= nextLineStart *)
    pose proof (midpoint_bounds low high Hle) as Hm.
    unfold probe, nextLineStartAt in Heq.
    destruct (Z.ltb_spec offset (lineStartAt lineOffsets0 (midpoint low high))) as [Hlt|Hge];
      [discriminate|].
    destruct (Z.ltb_spec (midpoint low high + 1) (Z.of_nat (length lineOffsets0))) as [Hin|Hout];
      [|discriminate].
    destruct (Z.geb_spec offset (lineStartAt lineOffsets0 (midpoint low high + 1))) as [Hge'|Hlt'];
      [|discriminate].
    apply H; auto; lia.
  - (* found *)
    pose proof (midpoint_bounds low high Hle) as Hm.
    exists (midpoint low high). split; [reflexivity|].
    unfold probe, nextLineStartAt in Heq.
    destruct (Z.ltb_spec offset (lineStartAt lineOffsets0 (midpoint low high))) as [Hlt|Hge];
      [discriminate|].
    split; [lia|]. split; [lia|]. intros Hin.
    destruct (Z.ltb_spec (midpoint low high + 1) (Z.of_nat (length lineOffsets0))) as [_|Hout];
      [|lia].
    destruct (Z.geb_spec offset (lineStartAt lineOffsets0 (midpoint low high + 1))) as [Hge'|Hlt'];
      [discriminate|lia].
Qed.

(** [offsetToPosition] returns the line [l] whose start is at or before
    [offset] while the next line, if any, starts after it. *)
Lemma offsetToPosition_at (offs : list Z) (offset : Z) (l : nat) (s : Z) :
  increasing offs →
  0 <= offset →
  offs !! l = Some s →
  s <= offset →
  (∀ sn, offs !! S l = Some sn → offset < sn) →
  offsetToPosition offset offs = vscode.mkPosition (Z.of_nat l) (offset - s).
Proof.
  intros Hinc Hoff Hl Hs Hnext.
  pose proof (lookup_lt_Some _ _ _ Hl) as Hlen.
  assert (H0 : lineStartAt offs 0 <= offset).
  { pose proof (lineStartAt_lookup offs 0 ltac:(lia)) as E0.
    change (Z.to_nat 0) with 0%nat in E0.
    destruct l as [|l']; [rewrite Hl in E0; injection E0; lia|].
    pose proof (Hinc _ _ _ _ E0 Hl ltac:(lia)). lia. }
  destruct (searchLine_spec offset offs 0 (Z.of_nat (length offs) - 1) Hinc)
    as (m & Hm & Hmr & Hle & Hlt); try lia.
  unfold offsetToPosition. destruct (Z.ltb_spec offset 0); [lia|].
  rewrite Hm. pose proof (lineStartAt_lookup offs m Hmr) as Em.
  assert (Z.to_nat m = l) as <-; [|f_equal; [lia|congruence]].
  destruct (Nat.lt_total (Z.to_nat m) l) as [Hc|[Hc|Hc]]; [exfalso|exact Hc|exfalso].
  - pose proof (lineStartAt_lookup offs (m + 1) ltac:(lia)) as En.
    specialize (Hlt ltac:(lia)).
    destruct (Nat.eq_dec (Z.to_nat (m + 1)) l) as [He|Hne].
    + rewrite He, Hl in En. injection En as En. lia.
    + pose proof (Hinc _ _ _ _ En Hl ltac:(lia)). lia.
  - destruct (offs !! S l) as [sn|] eqn:En.
    + specialize (Hnext sn eq_refl).
      destruct (Nat.eq_dec (S l) (Z.to_nat m)) as [He|Hne].
      * rewrite He, Em in En. injection En as En. lia.
      * pose proof (Hinc _ _ _ _ En Em ltac:(lia)). lia.
    + apply lookup_ge_None in En. lia.
Qed.

(** Every offset from 0 on has a line: the greatest index whose start is at
    or before it. *)
Lemma line_of_offset (offs : list Z) (offset : Z) :
  increasing offs → offs !! 0%nat = Some 0 → 0 <= offset →
  ∃ (l : nat) (s : Z),
    offs !! l = Some s ∧ s <= offset
    ∧ (∀ sn, offs !! S l = Some sn → offset < sn)
    ∧ (∀ (j : nat) sj, offs !! j = Some sj → sj <= offset → (j <= l)%nat).
Proof.
  intros Hinc H0 Hoff.
  pose proof (lookup_lt_Some _ _ _ H0) as Hlen.
  destruct (searchLine_spec offset offs 0 (Z.of_nat (length offs) - 1) Hinc)
    as (m & _ & Hmr & Hle & Hlt); try lia.
  { pose proof (lineStartAt_lookup offs 0 ltac:(lia)) as E0.
    change (Z.to_nat 0) with 0%nat in E0. rewrite H0 in E0. injection E0; lia. }
  pose proof (lineStartAt_lookup offs m Hmr) as Em.
  exists (Z.to_nat m), (lineStartAt offs m). repeat split; auto.
  - intros sn En. pose proof (lookup_lt_Some _ _ _ En).
    pose proof (lineStartAt_lookup offs (m + 1) ltac:(lia)) as En'.
    replace (Z.to_nat (m + 1)) with (S (Z.to_nat m)) in En' by lia.
    rewrite En in En'. injection En' as ->. apply Hlt. lia.
  - intros j sj Ej Hj.
    destruct (Nat.le_gt_cases j (Z.to_nat m)) as [|Hgt]; [assumption|exfalso].
    pose proof (lookup_lt_Some _ _ _ Ej).
    pose proof (lineStartAt_lookup offs (m + 1) ltac:(lia)) as En.
    specialize (Hlt ltac:(lia)).
    destruct (Nat.eq_dec (Z.to_nat (m + 1)) j) as [He|Hne].
    + rewrite He, Ej in En. injection En as En. lia.
    + pose proof (Hinc _ _ _ _ En Ej ltac:(lia)). lia.
Qed.

Lemma computeLineOffsets_elem (text : jsstring) (o : Z) :
  o ∈ computeLineOffsets text ↔
  o = 0 ∨ ∃ i : nat, text !! i = Some 10%N ∧ o = Z.of_nat i + 1.
Proof.
  unfold computeLineOffsets. rewrite elem_of_cons, scanLineFeeds_elem.
  split; (intros [->|(k & Hk & ->)]; [left; reflexivity | right; exists k; split; auto; lia]).
Qed.

(** C8.  The line starts are 0 and every offset just after a line feed, in
    increasing order; an offset from 0 on resolves to the greatest line
    whose start is at or before it, with the distance to that start as
    column; an offset at or beyond the end of the text resolves to the last
    line; the empty text resolves to line 0, column 0; and the offset just
    after a line feed resolves to column 0 of the following line. *)
Theorem position_index_correct (text : jsstring) (offset : Z) :
  0 <= offset →
  let offs := computeLineOffsets text in
  (offs !! 0%nat = Some 0
   ∧ (∀ o, o ∈ offs ↔ o = 0 ∨ ∃ i : nat, text !! i = Some 10%N ∧ o = Z.of_nat i + 1)
   ∧ increasing offs)
  ∧ (∃ (l : nat) (s : Z),
       offs !! l = Some s
       ∧ offsetToPosition offset offs = vscode.mkPosition (Z.of_nat l) (offset - s)
       ∧ s <= offset
       ∧ (∀ (j : nat) sj, offs !! j = Some sj → sj <= offset → (j <= l)%nat)
       ∧ (jsLength text <= offset → S l = length offs))
  ∧ (text = [] → offsetToPosition 0 offs = vscode.mkPosition 0 0
                 ∧ vscode.line (offsetToPosition offset offs) = 0)
  ∧ (∀ i : nat, text !! i = Some 10%N →
       offsetToPosition (Z.of_nat i + 1) offs
       = vscode.mkPosition
           (vscode.line (offsetToPosition (Z.of_nat i) offs) + 1) 0).
Proof.
  intros Hoff offs.
  pose proof (computeLineOffsets_increasing text) as Hinc. fold offs in Hinc.
  assert (H0 : offs !! 0%nat = Some 0) by reflexivity.
  destruct (line_of_offset offs offset Hinc H0 Hoff) as (l & s & El & Hs & Hnext & Hmax).
  pose proof (offsetToPosition_at offs offset l s Hinc Hoff El Hs Hnext) as Hpos.
  split; [|split; [|split]].
  - split; [exact H0|]. split; [apply computeLineOffsets_elem | exact Hinc].
  - exists l, s. repeat split; auto.
    intros Hend. pose proof (lookup_lt_Some _ _ _ El) as Hl.
    destruct (offs !! (length offs - 1)%nat) as [sl|] eqn:Elast;
      [|apply lookup_ge_None in Elast; lia].
    assert (Hsl : sl <= offset).
    { assert (Hin : sl ∈ offs) by (eapply list_elem_of_lookup_2; eauto).
      apply computeLineOffsets_elem in Hin as [->|(i & Hi & ->)]; [lia|].
      apply lookup_lt_Some in Hi. unfold jsLength in Hend. lia. }
    specialize (Hmax _ _ Elast Hsl). lia.
  - intros ->. split; [reflexivity|]. rewrite Hpos. simpl.
    destruct l as [|l']; [reflexivity|]. destruct l'; discriminate.
  - intros i Hi.
    assert (Hin : Z.of_nat i + 1 ∈ offs)
      by (apply computeLineOffsets_elem; right; exists i; auto).
    apply list_elem_of_lookup_1 in Hin as (l1 & El1).
    destruct l1 as [|l0]; [rewrite H0 in El1; injection El1; lia|].
    destruct (offs !! l0) as [s0|] eqn:El0;
      [|apply lookup_ge_None in El0; apply lookup_lt_Some in El1; lia].
    pose proof (Hinc _ _ _ _ El0 El1 ltac:(lia)) as Hlt.
    assert (Hs0 : 0 <= s0).
    { assert (Hin : s0 ∈ offs) by (eapply list_elem_of_lookup_2; eauto).
      apply computeLineOffsets_elem in Hin as [->|(k & _ & ->)]; lia. }
    rewrite (offsetToPosition_at offs (Z.of_nat i) l0 s0); auto; try lia.
    + rewrite (offsetToPosition_at offs (Z.of_nat i + 1) (S l0) (Z.of_nat i + 1)); auto; try lia.
      * simpl. f_equal; lia.
      * intros sn En. pose proof (Hinc _ _ _ _ El1 En ltac:(lia)). lia.
    + intros sn En. rewrite El1 in En. injection En as <-. lia.
Qed.

Lemma position_index_correct_witness :
  0 <= 4 ∧
  ∃ (l : nat) (s : Z),
    computeLineOffsets (js "ab" ++ nl ++ js "cd") !! l = Some s
    ∧ offsetToPosition 4 (computeLineOffsets (js "ab" ++ nl ++ js "cd"))
      = vscode.mkPosition (Z.of_nat l) (4 - s)
    ∧ s <= 4.
Proof.
  split; [lia|].
  destruct (position_index_correct (js "ab" ++ nl ++ js "cd") 4 ltac:(lia))
    as (_ & (l & s & El & Hpos & Hs & _) & _).
  exists l, s. auto.
Defined.

(** ** Blank input *)

Lemma trimStart_blank (s : jsstring) :
  Forall (λ c, isWhiteSpace c = true) s → trimStart s = [].
Proof.
  induction 1 as [|c rest Hc _ IH]; simpl; [reflexivity|]. now rewrite Hc.
Qed.

Lemma trim_blank (s : jsstring) :
  Forall (λ c, isWhiteSpace c = true) s → trim s = [].
Proof.
  intros H. unfold trim, trimEnd. now rewrite (trimStart_blank s H).
Qed.

Lemma trimStart_nil_blank (s : jsstring) :
  trimStart s = [] → Forall (λ c, isWhiteSpace c = true) s.
Proof.
  induction s as [|c rest IH]; simpl; [constructor|].
  destruct (isWhiteSpace c) eqn:Hc; [|discriminate].
  intros H. constructor; auto.
Qed.

Lemma trimStart_head (s : jsstring) (c : N) (t : jsstring) :
  trimStart s = c :: t → isWhiteSpace c = false.
Proof.
  induction s as [|a l IH]; simpl; [discriminate|].
  destruct (isWhiteSpace a) eqn:Ha; [exact IH|].
  intros E. injection E as -> _. exact Ha.
Qed.

(** [trim] yields the empty string exactly on whitespace-only strings. *)
Lemma trim_nil_iff (s : jsstring) :
  trim s = [] ↔ Forall (λ c, isWhiteSpace c = true) s.
Proof.
  split; [|apply trim_blank].
  unfold trim, trimEnd. intros H.
  apply (f_equal (@rev N)) in H. rewrite rev_involutive in H. simpl in H.
  apply trimStart_nil_blank in H. apply Forall_rev in H.
  rewrite rev_involutive in H.
  destruct (trimStart s) as [|c t] eqn:E; [now apply trimStart_nil_blank|].
  exfalso. apply trimStart_head in E. inversion H; subst. congruence.
Qed.

(** ** Line numbers of diagnostics *)

Lemma createResult_line context lvl msg node cmd :
  lineMatchesRange (createResult context lvl msg node cmd).
Proof. reflexivity. Qed.

Lemma parseErrorResult_line context err :
  lineMatchesRange (parseErrorResult context err).
Proof. reflexivity. Qed.

Create HintDb lines.
#[local] Hint Resolve createResult_line parseErrorResult_line : lines.
#[local] Hint Constructors Forall : lines.

Ltac rule_lines :=
  repeat case_match; auto with lines.

Lemma validateTapOnSelector_line command context :
  Forall lineMatchesRange (validateTapOnSelector command context).
Proof. unfold validateTapOnSelector. rule_lines. Qed.

Lemma validateInputTextValue_line command context :
  Forall lineMatchesRange (validateInputTextValue command context).
Proof. unfold validateInputTextValue. rule_lines. Qed.

Lemma validateConditionalHasCommands_line command context :
  Forall lineMatchesRange (validateConditionalHasCommands command context).
Proof. unfold validateConditionalHasCommands. rule_lines. Qed.

Lemma validateUnknownCommandName_line command context :
  Forall lineMatchesRange (validateUnknownCommandName command context).
Proof. unfold validateUnknownCommandName. rule_lines. Qed.

Lemma validateTakeScreenshotHasName_line command context :
  Forall lineMatchesRange (validateTakeScreenshotHasName command context).
Proof. unfold validateTakeScreenshotHasName. rule_lines. Qed.

Lemma immediatelyAfterTapOn_foldl_line sequence context l st :
  Forall lineMatchesRange st.1 →
  Forall lineMatchesRange (foldl (immediatelyAfterTapOnStep sequence context) st l).1.
Proof.
  revert st. induction l as [|i l IH]; intros st Hst; simpl; [exact Hst|].
  apply IH. unfold immediatelyAfterTapOnStep. repeat case_match; auto.
  simpl. apply Forall_app. auto with lines.
Qed.

Lemma validateAssertVisibleHasPriorNavigationOrWait_line sequence context handled :
  Forall lineMatchesRange
    (validateAssertVisibleHasPriorNavigationOrWait sequence context handled).
Proof.
  unfold validateAssertVisibleHasPriorNavigationOrWait.
  apply Forall_flat_map, Forall_forall. intros i _.
  unfold priorNavigationStep. rule_lines.
Qed.

Lemma validateDuplicateSequentialActions_line sequence context :
  Forall lineMatchesRange (validateDuplicateSequentialActions sequence context).
Proof.
  unfold validateDuplicateSequentialActions.
  apply Forall_flat_map, Forall_forall. intros i _.
  unfold duplicateStep. rule_lines.
Qed.

Lemma sequenceRules_line context sequence :
  Forall lineMatchesRange (sequenceRules context sequence).
Proof.
  unfold sequenceRules.
  pose proof (immediatelyAfterTapOn_foldl_line sequence context
                (seq 0 (length sequence - 1)) ([], ∅) ltac:(constructor)) as H.
  fold (validateAssertVisibleImmediatelyAfterTapOn sequence context ∅) in H.
  destruct (validateAssertVisibleImmediatelyAfterTapOn sequence context ∅)
    as [adjacent handled].
  repeat (apply Forall_app; split); auto.
  - apply validateAssertVisibleHasPriorNavigationOrWait_line.
  - apply validateDuplicateSequentialActions_line.
Qed.

(** ** Substrings *)

Lemma startsWith_spec (s p : jsstring) :
  startsWith s p = true ↔ ∃ b, s = p ++ b.
Proof.
  revert s. induction p as [|a p IH]; intros s; simpl.
  - split; [intros _; now exists s | now destruct s].
  - destruct s as [|c s]; [split; [discriminate | intros [b Hb]; discriminate]|].
    cbn [startsWith]. rewrite andb_true_iff, IH, N.eqb_eq. split.
    + intros [-> [b ->]]. now exists b.
    + intros [b Hb]. injection Hb as -> ->. split; [reflexivity | now exists b].
Qed.

Lemma includes_spec (s p : jsstring) :
  includes s p = true ↔ ∃ a b, s = a ++ p ++ b.
Proof.
  induction s as [|c s IH].
  - cbn [includes]. rewrite orb_false_r, startsWith_spec. split.
    + intros [b Hb]. now exists [], b.
    + intros (a & b & Hab). destruct a; [now exists b|discriminate].
  - cbn [includes]. rewrite orb_true_iff, startsWith_spec, IH. split.
    + intros [[b Hb]|(a & b & ->)]; [now exists [], b | now exists (c :: a), b].
    + intros ([|c' a] & b & Hab); [left; now exists b|].
      right. injection Hab as -> ->. now exists a, b.
Qed.

Section ValidatorProperties.

Variable parseAllDocuments : jsstring -> list Document.
Variable path_dirname : jsstring -> jsstring.
Variable path_isAbsolute : jsstring -> bool.
Variable path_resolve : jsstring -> jsstring -> jsstring.
Variable existsSync : jsstring -> bool.

Local Abbreviation validate :=
  (validateMaestroFlow parseAllDocuments path_dirname path_isAbsolute
     path_resolve existsSync).

(** C4.  On a text made of whitespace only (the empty text included) the
    validator returns exactly one diagnostic, the empty-flow error at
    line 1, whatever the parser and the file system would have said. *)
Theorem blank_input_single_error (text : jsstring) (uri : Uri) :
  Forall (λ c, isWhiteSpace c = true) text →
  ∃ d, validate text uri = [d]
       ∧ level d = Error
       ∧ line d = 1
       ∧ message d = js "Line 1: " ++ emptyFileMessage
       ∧ command d = None.
Proof.
  intros Hblank. unfold validateMaestroFlow.
  rewrite (trim_blank text Hblank). simpl.
  eexists. split; [reflexivity|]. repeat split.
Qed.

Lemma validateRunFlowFileExists_line command context :
  Forall lineMatchesRange
    (validateRunFlowFileExists path_dirname path_isAbsolute path_resolve
       existsSync command context).
Proof. unfold validateRunFlowFileExists. rule_lines. Qed.

(** C3.  Every diagnostic the validator returns carries, as [line], the
    0-based start line of its range plus 1. *)
Theorem diagnostic_line_is_range_start_plus_one
    (text : jsstring) (uri : Uri) (d : ValidationResult) :
  d ∈ validate text uri →
  line d = vscode.line (vscode.start (range d)) + 1.
Proof.
  revert d. apply Forall_forall. unfold validateMaestroFlow.
  set (context := mkRuleContext text uri (computeLineOffsets text)).
  assert (Hsyntax : Forall lineMatchesRange
            (flat_map (λ doc, List.map (parseErrorResult context) (errors doc))
                      (parseAllDocuments text))).
  { apply Forall_flat_map, Forall_forall. intros doc _.
    apply Forall_map, Forall_forall. intros err _. apply parseErrorResult_line. }
  repeat case_match; repeat (apply Forall_app; split); auto with lines.
  - apply Forall_flat_map, Forall_forall. intros command _.
    unfold commandRules. repeat (apply Forall_app; split).
    + apply validateTapOnSelector_line.
    + apply validateInputTextValue_line.
    + apply validateConditionalHasCommands_line.
    + apply validateRunFlowFileExists_line.
    + apply validateUnknownCommandName_line.
    + apply validateTakeScreenshotHasName_line.
  - apply Forall_flat_map, Forall_forall. intros sequence _.
    apply sequenceRules_line.
Qed.

(** C5, as the validator has it.  On a non-blank text in which no command
    is discovered, the validator returns one error per YAML parse error,
    in document order, followed by exactly one no-commands error at
    line 1, whose message differs from the blank-input one; no command
    or sequence rule contributes.  Without parse errors that error is
    the only diagnostic. *)
Theorem no_commands_error_after_syntax_errors (text : jsstring) (uri : Uri) :
  trim text ≠ [] →
  concat (flat_map documentSequences (parseAllDocuments text)) = [] →
  let context := mkRuleContext text uri (computeLineOffsets text) in
  let syntaxErrors :=
    flat_map (λ doc, List.map (parseErrorResult context) (errors doc))
             (parseAllDocuments text) in
  ∃ d, validate text uri = syntaxErrors ++ [d]
       ∧ Forall (λ e, level e = Error) syntaxErrors
       ∧ length syntaxErrors
         = length (flat_map errors (parseAllDocuments text))
       ∧ level d = Error
       ∧ line d = 1
       ∧ message d = js "Line 1: " ++ noCommandsMessage
       ∧ message d ≠ js "Line 1: " ++ emptyFileMessage
       ∧ (Forall (λ doc, errors doc = []) (parseAllDocuments text) →
          validate text uri = [d]).
Proof.
  intros Hnonblank Hnone context syntaxErrors.
  exists (createResult context Error noCommandsMessage None None).
  assert (Hrun : validate text uri
                 = syntaxErrors ++ [createResult context Error noCommandsMessage None None]).
  { unfold validateMaestroFlow. fold context. fold syntaxErrors.
    destruct (trim text) as [|c t] eqn:E; [congruence|].
    rewrite Hnone. reflexivity. }
  split; [exact Hrun|]. split; [|split; [|split; [|split; [|split; [|split]]]]];
    try reflexivity.
  - apply Forall_flat_map, Forall_forall. intros doc _.
    apply Forall_map, Forall_forall. intros err _. reflexivity.
  - subst syntaxErrors. clear Hrun Hnone.
    induction (parseAllDocuments text) as [|doc docs IH];
      simpl; [reflexivity|].
    rewrite !length_app, length_map, IH. reflexivity.
  - intros H. vm_compute in H. discriminate H.
  - intros Hclean. rewrite Hrun. subst syntaxErrors. clear Hrun Hnone.
    induction Hclean as [|doc docs Hdoc _ IH]; simpl; [reflexivity|].
    rewrite Hdoc. simpl. exact IH.
Qed.

(** C10.  For a [runFlow] command, whatever the location of the document,
    the target-existence rule reports nothing when the command has no
    value, when no path can be extracted from the value (it is neither a
    string scalar nor a map whose [flow] key holds a string scalar), or
    when the extracted path contains [${]; whatever it reports is a single
    error for an extracted path without [${] whose resolved target does
    not exist. *)
Theorem runFlow_rule_skips (command : MaestroCommand) (context : RuleContext) :
  name command = js "runFlow" →
  let rule :=
    validateRunFlowFileExists path_dirname path_isAbsolute path_resolve
      existsSync command context in
  (valueNode command = None → rule = [])
  ∧ (∀ v, valueNode command = Some v →
          extractRunFlowTargetPath v = None → rule = [])
  ∧ (∀ v, extractRunFlowTargetPath v = None ↔
          (∀ s r, v ≠ Scalar (VString s) r)
          ∧ (∀ items r s r', v = YAMLMap items r →
               findMapValueByKey items (js "flow") ≠ Some (Scalar (VString s) r')))
  ∧ (∀ v p a b, valueNode command = Some v →
          extractRunFlowTargetPath v = Some p →
          p = a ++ js "${" ++ b → rule = [])
  ∧ (∀ d, d ∈ rule →
       rule = [d] ∧ level d = Error
       ∧ ∃ v p, valueNode command = Some v
                ∧ extractRunFlowTargetPath v = Some p
                ∧ (∀ a b, p ≠ a ++ js "${" ++ b)
                ∧ existsSync (resolveRunFlowTarget path_dirname path_isAbsolute
                                path_resolve context p) = false
                ∧ scheme (uri context) = js "file").
Proof.
  intros Hname rule. subst rule. unfold validateRunFlowFileExists.
  rewrite Hname. rewrite bool_decide_true by reflexivity. cbn [negb].
  split; [|split; [|split; [|split]]].
  - intros ->. now destruct (negb _).
  - intros v -> ->. now destruct (negb _).
  - intros v. split.
    + intros Hv. split.
      * intros s r ->. discriminate.
      * intros items r s r' -> Hf. simpl in Hv. rewrite Hf in Hv. discriminate.
    + intros [Hs Hm]. destruct v as [[]| | |]; simpl; try reflexivity.
      * now destruct (Hs s range0).
      * destruct (findMapValueByKey items (js "flow")) as [[[]| | |]|] eqn:E;
          try reflexivity.
        now destruct (Hm items range0 s range1 eq_refl).
  - intros v p a b -> -> Hp.
    assert (Hinc : includes p (js "${") = true) by (apply includes_spec; eauto).
    rewrite Hinc. destruct (negb _); [reflexivity|]. now destruct p.
  - intros d Hd.
    destruct (bool_decide (scheme (uri context) = js "file")) eqn:Hscheme;
      cbn [negb] in Hd; [|inversion Hd].
    apply bool_decide_eq_true in Hscheme.
    destruct (valueNode command) as [v|]; [|inversion Hd].
    destruct (extractRunFlowTargetPath v) as [[|c p]|] eqn:Hp; try (inversion Hd; fail).
    destruct (includes (c :: p) (js "${")) eqn:Hinc; [inversion Hd|].
    destruct (existsSync _) eqn:Hex; cbn [negb] in Hd; [inversion Hd|].
    apply list_elem_of_singleton in Hd. subst d.
    split; [reflexivity|]. split; [reflexivity|].
    exists v, (c :: p). repeat split; auto.
    intros a b Hab.
    assert (includes (c :: p) (js "${") = true) by (apply includes_spec; eauto).
    congruence.
Qed.

End ValidatorProperties.

(** ** The tapOn selector rule *)

Lemma findMapValueByKey_binds (items : list Pair) (key : jsstring) (n : Node) :
  findMapValueByKey items key = Some n ↔ bindsKey items key (Some n).
Proof.
  induction items as [|[k v] rest IH]; simpl.
  - split; [discriminate | inversion 1].
  - destruct (keyName k) as [s|] eqn:Ek.
    + destruct (bool_decide_reflect (s = key)) as [->|Hne].
      * split; [intros ->; now constructor|].
        inversion 1; subst; [reflexivity | congruence].
      * rewrite IH. split; [intros H; constructor; congruence|].
        inversion 1; subst; [congruence | assumption].
    + rewrite IH. split; [intros H; constructor; congruence|].
      inversion 1; subst; [congruence | assumption].
Qed.

(** In a map without a repeated key, the lookup yields the value of the one
    pair that has the key. *)
Lemma bindsKey_unique_keys (items : list Pair) (key : jsstring) (v : option Node) :
  NoDup (omap (λ p : Pair, keyName p.1) items) →
  bindsKey items key v ↔ ∃ k, (k, v) ∈ items ∧ keyName k = Some key.
Proof.
  induction items as [|[k0 v0] rest IH]; intros Hnd.
  - split; [inversion 1 | intros (k & Hk & _); inversion Hk].
  - assert (Hrest : NoDup (omap (λ p : Pair, keyName p.1) rest)).
    { simpl in Hnd. destruct (keyName k0); [now inversion Hnd | exact Hnd]. }
    split.
    + inversion 1 as [? ? ? ? Hhere | ? ? ? ? ? Hother Hlater]; subst.
      * exists k0. split; [left | assumption].
      * apply IH in Hlater as (k & Hk & Hkey); [|exact Hrest].
        exists k. split; [now right | assumption].
    + intros (k & Hin & Hkey). apply elem_of_cons in Hin as [Heq|Hin].
      * injection Heq as -> ->. now constructor.
      * destruct (decide (keyName k0 = Some key)) as [He|Hne].
        -- exfalso. simpl in Hnd. rewrite He in Hnd. inversion Hnd as [|? ? Hnotin _]; subst.
           apply Hnotin. apply list_elem_of_omap. exists (k, v). auto.
        -- apply binds_later; [exact Hne|]. apply IH; eauto.
Qed.

Lemma isNonBlankString_spec (v : ScalarValue) :
  isNonBlankString v = true ↔ ∃ s, v = VString s ∧ trim s ≠ [].
Proof.
  destruct v as [s| | |]; simpl;
    try (split; [discriminate | intros (s' & Hs & _); discriminate]).
  unfold jsLength. split.
  - intros H. exists s. split; [reflexivity|]. intros E. rewrite E in H. discriminate.
  - intros (s' & Hs & Hne). injection Hs as <-. destruct (trim s); [congruence | reflexivity].
Qed.

Lemma isNonBlankStringNode_spec (items : list Pair) (key : jsstring) :
  isNonBlankStringNode (findMapValueByKey items key) = true
  ↔ holdsNonBlankString items key.
Proof.
  unfold holdsNonBlankString, isNonBlankStringNode. split.
  - destruct (findMapValueByKey items key) as [[v r| | |]|] eqn:E; try discriminate.
    intros H. apply isNonBlankString_spec in H as (s & -> & Hs).
    exists s, r. split; [now apply findMapValueByKey_binds | exact Hs].
  - intros (s & r & Hb & Hs). apply findMapValueByKey_binds in Hb. rewrite Hb.
    apply isNonBlankString_spec. eauto.
Qed.

Lemma hasAnyStringKey_spec (items : list Pair) (keys : list jsstring) :
  hasAnyStringKey items keys = true
  ↔ ∃ key, key ∈ keys ∧ holdsNonBlankString items key.
Proof.
  induction keys as [|key rest IH]; simpl.
  - split; [discriminate | intros (k & Hk & _); inversion Hk].
  - destruct (isNonBlankStringNode (findMapValueByKey items key)) eqn:E.
    + split; [intros _|reflexivity]. exists key. split; [left|].
      now apply isNonBlankStringNode_spec.
    + rewrite IH. split.
      * intros (k & Hk & Hh). exists k. split; [now right | exact Hh].
      * intros (k & Hk & Hh). apply elem_of_cons in Hk as [->|Hk]; [|eauto].
        apply isNonBlankStringNode_spec in Hh. congruence.
Qed.

(** C2.  For a command named [tapOn] the selector rule reports an error
    exactly when the value is absent, is a scalar other than a non-blank
    string, is a map that holds a non-blank string under none of [text],
    [id] and [accessibilityLabel], or has another shape; it reports at most
    one diagnostic, an error; and a non-blank string value passes. *)
Theorem tapOn_selector_rule (command : MaestroCommand) (context : RuleContext) :
  name command = js "tapOn" →
  let rule := validateTapOnSelector command context in
  (rule ≠ [] ↔
     valueNode command = None
     ∨ (∃ v r, valueNode command = Some (Scalar v r)
               ∧ ∀ s, v = VString s → trim s = [])
     ∨ (∃ items r, valueNode command = Some (YAMLMap items r)
                   ∧ ∀ key, key ∈ [js "text"; js "id"; js "accessibilityLabel"] →
                            ¬ holdsNonBlankString items key)
     ∨ (∃ n, valueNode command = Some n
             ∧ (∀ v r, n ≠ Scalar v r) ∧ (∀ items r, n ≠ YAMLMap items r)))
  ∧ (∀ d, d ∈ rule → rule = [d] ∧ level d = Error)
  ∧ (∀ s r, valueNode command = Some (Scalar (VString s) r) →
            trim s ≠ [] → rule = []).
Proof.
  intros Hname rule. subst rule. unfold validateTapOnSelector.
  rewrite Hname, bool_decide_true by reflexivity. cbn [negb].
  destruct (valueNode command) as [[v r|items r|items r|a r]|].
  - (* scalar *)
    destruct (isNonBlankString v) eqn:E.
    + apply isNonBlankString_spec in E as (s & -> & Hs).
      split; [|split; [intros d Hd; inversion Hd | reflexivity]].
      split; [congruence|].
      intros [H|[(v & r' & H & Hv)|[(items & r' & H & _)|(n & H & Hn & _)]]];
        try discriminate.
      * injection H as <- <-. now destruct Hs, (Hv s).
      * injection H as <-. now destruct (Hn (VString s) r).
    + split; [|split].
      * split; [intros _|discriminate]. right; left. exists v, r.
        split; [reflexivity|]. intros s ->.
        destruct (trim s) eqn:Et; [reflexivity|].
        assert (isNonBlankString (VString s) = true)
          by (apply isNonBlankString_spec; exists s; split; congruence).
        congruence.
      * intros d Hd. apply list_elem_of_singleton in Hd. now subst d.
      * intros s r' H Hs. injection H as -> ->.
        assert (isNonBlankString (VString s) = true)
          by (apply isNonBlankString_spec; eauto).
        congruence.
  - (* map *)
    fold selectorKeys.
    destruct (hasAnyStringKey items selectorKeys) eqn:E; cbn [negb].
    + apply hasAnyStringKey_spec in E as (key & Hkey & Hh).
      split; [|split; [intros d Hd; inversion Hd | discriminate]].
      split; [congruence|].
      intros [H|[(v & r' & H & _)|[(items' & r' & H & Hnone)|(n & H & _ & Hn)]]];
        try discriminate.
      * injection H as <- <-. now destruct (Hnone key Hkey).
      * injection H as <-. now destruct (Hn items r).
    + split; [|split; [|discriminate]].
      * split; [intros _|discriminate]. right; right; left. exists items, r.
        split; [reflexivity|]. intros key Hkey Hh.
        assert (hasAnyStringKey items selectorKeys = true)
          by (apply hasAnyStringKey_spec; eauto).
        congruence.
      * intros d Hd. apply list_elem_of_singleton in Hd. now subst d.
  - (* sequence *)
    split; [|split; [|discriminate]].
    + split; [intros _|discriminate]. right; right; right.
      exists (YAMLSeq items r). repeat split; discriminate.
    + intros d Hd. apply list_elem_of_singleton in Hd. now subst d.
  - (* alias *)
    split; [|split; [|discriminate]].
    + split; [intros _|discriminate]. right; right; right.
      exists (Alias a r). repeat split; discriminate.
    + intros d Hd. apply list_elem_of_singleton in Hd. now subst d.
  - (* absent *)
    split; [|split; [|discriminate]].
    + split; [intros _; now left | discriminate].
    + intros d Hd. apply list_elem_of_singleton in Hd. now subst d.
Qed.

(** ** The assertVisible rules *)

Lemma immediatelyAfterTapOnStep_split sequence context st i :
  immediatelyAfterTapOnStep sequence context st i
  = (st.1 ++ immediatelyAfterTapOnAt sequence context i,
     (immediatelyAfterTapOnStep sequence context ([], ∅) i).2 ∪ st.2).
Proof.
  unfold immediatelyAfterTapOnAt, immediatelyAfterTapOnStep.
  destruct st as [results handled].
  repeat case_match; simpl; rewrite ?app_nil_r; f_equal;
    first [ now rewrite union_empty_r_L | now rewrite union_empty_l_L ].
Qed.

Lemma immediatelyAfterTapOn_foldl_results sequence context l st :
  (foldl (immediatelyAfterTapOnStep sequence context) st l).1
  = st.1 ++ flat_map (immediatelyAfterTapOnAt sequence context) l.
Proof.
  revert st. induction l as [|i l IH]; intros st; simpl.
  - now rewrite app_nil_r.
  - rewrite IH, immediatelyAfterTapOnStep_split. simpl. now rewrite app_assoc.
Qed.

Lemma immediatelyAfterTapOnStep_handled sequence context i k :
  k ∈ (immediatelyAfterTapOnStep sequence context ([], ∅) i).2
  ↔ k = (i + 1)%nat ∧ tapOnThenAssertVisibleAt sequence i.
Proof.
  unfold immediatelyAfterTapOnStep, tapOnThenAssertVisibleAt.
  destruct (sequence !! i) as [current|] eqn:Ei;
    [destruct (sequence !! (i + 1)%nat) as [next|] eqn:En|].
  - destruct (bool_decide_reflect (name current = js "tapOn")) as [Hc|Hc];
      [destruct (bool_decide_reflect (name next = js "assertVisible")) as [Hn|Hn]|];
      simpl.
    + rewrite union_empty_r_L, elem_of_singleton.
      split; [intros ->; split; eauto 10 | now intros [-> _]].
    + rewrite elem_of_empty. split; [tauto|].
      intros (_ & c & n & Hc' & Hn' & _ & Hname). congruence.
    + rewrite elem_of_empty. split; [tauto|].
      intros (_ & c & n & Hc' & Hn' & Hname & _). congruence.
  - simpl. rewrite elem_of_empty. split; [tauto|].
    intros (_ & c & n & _ & Hn' & _). congruence.
  - simpl. rewrite elem_of_empty. split; [tauto|].
    intros (_ & c & n & Hc' & _). congruence.
Qed.

Lemma immediatelyAfterTapOn_foldl_handled sequence context l st k :
  k ∈ (foldl (immediatelyAfterTapOnStep sequence context) st l).2
  ↔ k ∈ st.2 ∨ ∃ i, i ∈ l ∧ k = (i + 1)%nat ∧ tapOnThenAssertVisibleAt sequence i.
Proof.
  revert st. induction l as [|i l IH]; intros st; simpl.
  - split; [now left | intros [H|(i & Hi & _)]; [exact H | inversion Hi]].
  - rewrite IH, immediatelyAfterTapOnStep_split. simpl.
    rewrite elem_of_union, immediatelyAfterTapOnStep_handled. split.
    + intros [[[-> Hp]|Hk]|(j & Hj & Hkj)].
      * right. exists i. split; [left | auto].
      * now left.
      * right. exists j. split; [now right | exact Hkj].
    + intros [Hk|(j & Hj & -> & Hp)]; [left; now right|].
      apply elem_of_cons in Hj as [->|Hj]; [left; left; auto|].
      right. exists j. auto.
Qed.

(** The asserts marked handled by the adjacency rule are those that follow
    a [tapOn] directly. *)
Lemma handledAsserts_spec sequence context k :
  k ∈ (validateAssertVisibleImmediatelyAfterTapOn sequence context ∅).2
  ↔ ∃ i, k = (i + 1)%nat ∧ tapOnThenAssertVisibleAt sequence i.
Proof.
  unfold validateAssertVisibleImmediatelyAfterTapOn.
  rewrite immediatelyAfterTapOn_foldl_handled. simpl. split.
  - intros [H|(i & _ & Hk & Hp)]; [now apply elem_of_empty in H | eauto].
  - intros (i & -> & Hp). right. exists i. split; [|auto].
    destruct Hp as (c & n & Hc & Hn & _).
    apply lookup_lt_Some in Hn. apply elem_of_seq. lia.
Qed.

(** The navigation-or-wait vocabulary, name by name. *)
Lemma NAV_OR_WAIT_COMMANDS_spec (n : jsstring) :
  n ∈ NAV_OR_WAIT_COMMANDS ↔
  n ∈ [ js "tapOn"; js "scroll"; js "swipe"; js "scrollUntilVisible";
        js "scrollToIndex"; js "scrollUntil"; js "launchApp"; js "runFlow";
        js "openLink"; js "back"; js "pressKey"; js "waitForVisible";
        js "waitForNotVisible"; js "waitForAnimationToEnd"; js "repeat";
        js "conditional" ].
Proof. unfold NAV_OR_WAIT_COMMANDS. now rewrite elem_of_list_to_set. Qed.

Lemma hasNavOrWaitBefore_spec (sequence : list MaestroCommand) (i : nat) :
  hasNavOrWaitBefore sequence i = true
  ↔ ∃ j prev, (j < i)%nat ∧ sequence !! j = Some prev
              ∧ name prev ∈ NAV_OR_WAIT_COMMANDS.
Proof.
  induction i as [|i IH]; simpl.
  - split; [discriminate | intros (j & _ & Hj & _); lia].
  - assert (Hstep : (∃ j prev, (j < i)%nat ∧ sequence !! j = Some prev
                               ∧ name prev ∈ NAV_OR_WAIT_COMMANDS)
                    → ∃ j prev, (j < S i)%nat ∧ sequence !! j = Some prev
                                ∧ name prev ∈ NAV_OR_WAIT_COMMANDS).
    { intros (j & prev & Hj & H). exists j, prev. split; [lia | exact H]. }
    destruct (sequence !! i) as [prev|] eqn:Ei.
    + destruct (bool_decide_reflect (name prev ∈ NAV_OR_WAIT_COMMANDS)) as [Hnav|Hnav].
      * split; [intros _; exists i, prev; split; [lia | auto] | reflexivity].
      * rewrite IH. split; [exact Hstep|].
        intros (j & p & Hj & Hp & Hin).
        destruct (decide (j = i)) as [->|Hne]; [congruence|].
        exists j, p. split; [lia | auto].
    + rewrite IH. split; [exact Hstep|].
      intros (j & p & Hj & Hp & Hin).
      destruct (decide (j = i)) as [->|Hne]; [congruence|].
      exists j, p. split; [lia | auto].
Qed.

(** C6.  Where a [tapOn] at position [i] is followed by an [assertVisible]
    at position [i + 1], the adjacency rule, whose results are those of its
    iterations in order, pushes in iteration [i] exactly one warning, on
    the [assertVisible], saying that it comes immediately after [tapOn];
    the position [i + 1] is marked handled; the prior-navigation rule, run
    with the marks of the adjacency rule, pushes nothing for that position;
    and neither the duplicate rule nor any command rule reports on that
    [assertVisible]. *)
Theorem assertVisible_after_tapOn_warned_once
    (sequence : list MaestroCommand) (context : RuleContext) (i : nat)
    (current next : MaestroCommand) :
  sequence !! i = Some current →
  sequence !! (i + 1)%nat = Some next →
  name current = js "tapOn" →
  name next = js "assertVisible" →
  let adjacent := validateAssertVisibleImmediatelyAfterTapOn sequence context ∅ in
  let w := createResult context Warning immediatelyAfterTapOnMessage
             (nullish (nameNode next) (nameNode current))
             (Some (js "assertVisible")) in
  adjacent.1 = flat_map (immediatelyAfterTapOnAt sequence context)
                        (seq 0 (length sequence - 1))
  ∧ i ∈ seq 0 (length sequence - 1)
  ∧ immediatelyAfterTapOnAt sequence context i = [w]
  ∧ level w = Warning
  ∧ (∃ a b, message w = a ++ js "immediately after tapOn" ++ b)
  ∧ range w = rangeFromNode (nullish (nameNode next) (nameNode current)) context
  ∧ (i + 1)%nat ∈ adjacent.2
  ∧ priorNavigationStep sequence context adjacent.2 (i + 1) = []
  ∧ duplicateStep sequence context i = []
  ∧ (∀ dirname isAbsolute resolve existsSync,
       commandRules dirname isAbsolute resolve existsSync context next = [])
  ∧ sequenceRules context sequence
    = adjacent.1
      ++ flat_map (priorNavigationStep sequence context adjacent.2)
                  (seq 0 (length sequence))
      ++ validateDuplicateSequentialActions sequence context.
Proof.
  intros Hcur Hnext Hc Hn adjacent w.
  assert (Hhandled : (i + 1)%nat ∈ adjacent.2).
  { apply handledAsserts_spec. exists i. split; [reflexivity|].
    exists current, next. auto. }
  split; [|split; [|split; [|split; [|split; [|split; [|split; [|split; [|split; [|split]]]]]]]]].
  - subst adjacent. unfold validateAssertVisibleImmediatelyAfterTapOn.
    now rewrite immediatelyAfterTapOn_foldl_results.
  - apply lookup_lt_Some in Hnext. apply elem_of_seq. lia.
  - unfold immediatelyAfterTapOnAt, immediatelyAfterTapOnStep.
    rewrite Hcur, Hnext, Hc, Hn, !bool_decide_true by reflexivity. reflexivity.
  - reflexivity.
  - subst w. unfold createResult. cbn [message].
    set (prefix := messagePrefix _ _).
    exists (prefix ++ js "assertVisible is used "),
           (js " without an explicit wait. Insert `waitForVisible` between them to reduce flaky tests.").
    rewrite <- app_assoc. f_equal.
  - reflexivity.
  - exact Hhandled.
  - unfold priorNavigationStep. rewrite Hnext, Hn.
    rewrite (bool_decide_true (js "assertVisible" = js "assertVisible")) by reflexivity.
    cbn [negb]. now rewrite bool_decide_true.
  - unfold duplicateStep. rewrite Hcur, Hnext, Hc, Hn. reflexivity.
  - intros dirname isAbsolute resolve existsSync.
    unfold commandRules, validateTapOnSelector, validateInputTextValue,
      validateConditionalHasCommands, validateRunFlowFileExists,
      validateUnknownCommandName, validateTakeScreenshotHasName.
    rewrite Hn. reflexivity.
  - unfold sequenceRules. fold adjacent. now destruct adjacent.
Qed.

(** C7.  For an [assertVisible] at position [i] that is not marked handled,
    the prior-navigation rule pushes a warning exactly when no command at
    an earlier position of the same sequence is a navigation or wait
    command; what it pushes depends on the commands of that sequence up to
    position [i] only, and the diagnostics of a sequence do not depend on
    the sequences around it. *)
Theorem assertVisible_prior_navigation_rule
    (sequence : list MaestroCommand) (context : RuleContext)
    (handledAsserts : HandledAsserts) (i : nat) (cmd : MaestroCommand) :
  sequence !! i = Some cmd →
  name cmd = js "assertVisible" →
  i ∉ handledAsserts →
  let pushed := priorNavigationStep sequence context handledAsserts i in
  let w := createResult context Warning withoutPriorNavigationMessage
             (nameNode cmd) (Some (js "assertVisible")) in
  ((∀ j prev, (j < i)%nat → sequence !! j = Some prev →
              name prev ∉ NAV_OR_WAIT_COMMANDS) → pushed = [w])
  ∧ ((∃ j prev, (j < i)%nat ∧ sequence !! j = Some prev
                ∧ name prev ∈ NAV_OR_WAIT_COMMANDS) → pushed = [])
  ∧ level w = Warning
  ∧ validateAssertVisibleHasPriorNavigationOrWait sequence context handledAsserts
    = flat_map (priorNavigationStep sequence context handledAsserts)
               (seq 0 (length sequence))
  ∧ (∀ others, take (S i) others = take (S i) sequence →
               priorNavigationStep others context handledAsserts i = pushed)
  ∧ (∀ before after,
       flat_map (sequenceRules context) (before ++ sequence :: after)
       = flat_map (sequenceRules context) before
         ++ sequenceRules context sequence
         ++ flat_map (sequenceRules context) after).
Proof.
  intros Hcmd Hname Hnot pushed w.
  assert (Hpushed : pushed = if hasNavOrWaitBefore sequence i then [] else [w]).
  { subst pushed w. unfold priorNavigationStep. rewrite Hcmd, Hname.
    rewrite (bool_decide_true (js "assertVisible" = js "assertVisible")) by reflexivity.
    cbn [negb]. rewrite bool_decide_false by exact Hnot.
    now destruct (hasNavOrWaitBefore sequence i). }
  split; [|split; [|split; [|split; [|split]]]].
  - intros Hnone. rewrite Hpushed.
    destruct (hasNavOrWaitBefore sequence i) eqn:E; [|reflexivity].
    apply hasNavOrWaitBefore_spec in E as (j & prev & Hj & Hp & Hin).
    now destruct (Hnone j prev Hj Hp).
  - intros Hsome. rewrite Hpushed.
    apply hasNavOrWaitBefore_spec in Hsome. now rewrite Hsome.
  - reflexivity.
  - reflexivity.
  - intros others Htake.
    assert (Hlook : ∀ j, (j <= i)%nat → others !! j = sequence !! j).
    { intros j Hj. rewrite <- (lookup_take_lt others (S i) j) by lia.
      rewrite Htake. apply lookup_take_lt. lia. }
    subst pushed. unfold priorNavigationStep. rewrite (Hlook i) by lia.
    assert (Hscan : ∀ k, (k <= i)%nat →
              hasNavOrWaitBefore others k = hasNavOrWaitBefore sequence k).
    { induction k as [|k IH]; intros Hk; simpl; [reflexivity|].
      rewrite (Hlook k), IH by lia. reflexivity. }
    now rewrite Hscan.
  - intros before after. rewrite flat_map_app. reflexivity.
Qed.

(** ** Nested command blocks *)

Example extract_tapThenAssert :
  documentSequences Samples.tapThenAssert = [Samples.tapThenAssertSequence].
Proof. reflexivity. Qed.

Lemma collectNested_unfold (items : list Pair) (r : option (Z * Z)) :
  collectNestedCommandSequencesFromMap (YAMLMap items r)
  = flat_map (λ p : Pair,
                commandsOfPair p.1 p.2
                ++ match p.2 with
                   | Some (YAMLMap sub sr) =>
                       collectNestedCommandSequencesFromMap (YAMLMap sub sr)
                   | _ => []
                   end) items.
Proof.
  induction items as [|[k v] rest IH]; [reflexivity|].
  cbn [flat_map fst snd]. rewrite <- IH, <- app_assoc.
  destruct v as [[| | |]|]; reflexivity.
Qed.

(** What the descent does find: under a map root, every non-empty
    [commands] list that is the value of a pair of the root or of a map
    reached through map values. *)
Lemma collectNested_finds (root : Node) (items : list Pair) (r : option (Z * Z))
    (k : option Node) (commands : list (option Node)) (cr : option (Z * Z)) :
  mapReachable root (YAMLMap items r) →
  (k, Some (YAMLSeq commands cr)) ∈ items →
  keyName k = Some (js "commands") →
  extractCommandsFromSequence commands ≠ [] →
  extractCommandsFromSequence commands
  ∈ collectNestedCommandSequencesFromMap root.
Proof.
  intros Hreach Hin Hkey Hne. remember (YAMLMap items r) as m eqn:Em.
  induction Hreach as [items0 r0 | items0 r0 k0 sub subr m Hsub Hreach IH].
  - injection Em as -> ->. rewrite collectNested_unfold.
    apply list_elem_of_In, in_flat_map. exists (k, Some (YAMLSeq commands cr)).
    split; [now apply list_elem_of_In|]. apply in_or_app. left.
    unfold commandsOfPair. cbn [fst snd]. rewrite Hkey.
    rewrite bool_decide_true by reflexivity.
    destruct (extractCommandsFromSequence commands); [congruence|]. now left.
  - specialize (IH Em). rewrite collectNested_unfold.
    apply list_elem_of_In, in_flat_map. exists (k0, Some (YAMLMap sub subr)).
    split; [now apply list_elem_of_In|]. apply in_or_app. right.
    now apply list_elem_of_In.
Qed.

(** C1.  A [commands] list under a command of the top-level list, or inside
    an item of another [commands] list, is not discovered.  On the flow of
    [Samples.nestedFlowText] the only sequence found is the top-level one,
    made of the [conditional] command, and the nested [tapOn] without
    selector draws no diagnostic; on the document of
    [Samples.doublyNestedText] the only sequence found is the outer
    [commands] list, made of the [repeat] command. *)
Theorem nested_commands_under_list_item_not_discovered :
  documentSequences Samples.nestedFlow
  = [[mkMaestroCommand (js "conditional") (Some Samples.conditionalKey)
        (Some Samples.conditionalValue)]]
  ∧ extractCommandsFromSequence [Some Samples.nestedTapOn]
    = [mkMaestroCommand (js "tapOn") (Some Samples.nestedTapOn) None]
  ∧ ((extractCommandsFromSequence [Some Samples.nestedTapOn])
     ∉ (documentSequences Samples.nestedFlow))
  ∧ Samples.validateWith Samples.nestedFlow Samples.nestedFlowText Samples.flowUri
    = []
  ∧ documentSequences Samples.doublyNested
    = [[mkMaestroCommand (js "repeat") (Some Samples.repeatKey)
          (Some Samples.repeatValue)]]
  ∧ Samples.validateWith Samples.doublyNested Samples.doublyNestedText
      Samples.flowUri
    = [].
Proof.
  split; [reflexivity|]. split; [reflexivity|]. split.
  { intros H. apply list_elem_of_singleton in H. discriminate H. }
  split; [vm_compute; reflexivity|]. split; [reflexivity|].
  vm_compute; reflexivity.
Qed.

(** ** The theorems at sample flows *)

Lemma tapOn_selector_rule_witness :
  name (mkMaestroCommand (js "tapOn") None None) = js "tapOn"
  ∧ validateTapOnSelector (mkMaestroCommand (js "tapOn") None None)
      Samples.tapThenAssertContext ≠ [].
Proof.
  split; [reflexivity|].
  apply (tapOn_selector_rule (mkMaestroCommand (js "tapOn") None None)
           Samples.tapThenAssertContext eq_refl).
  left. reflexivity.
Defined.

Lemma diagnostic_line_is_range_start_plus_one_witness :
  Samples.adjacencyWarning
    ∈ (Samples.validateWith Samples.tapThenAssert Samples.tapThenAssertText
         Samples.flowUri)
  ∧ line Samples.adjacencyWarning = 2.
Proof.
  assert (H : Samples.adjacencyWarning
              ∈ (Samples.validateWith Samples.tapThenAssert
                   Samples.tapThenAssertText Samples.flowUri))
    by (vm_compute; right; left).
  split; [exact H|].
  rewrite (diagnostic_line_is_range_start_plus_one _ _ _ _ _ _ _ _ H).
  reflexivity.
Defined.

Lemma blank_input_single_error_witness :
  Forall (λ c, isWhiteSpace c = true) (js "  " ++ nl)
  ∧ length (Samples.validateWith Samples.configOnly (js "  " ++ nl) Samples.flowUri)
    = 1%nat.
Proof.
  assert (H : Forall (λ c, isWhiteSpace c = true) (js "  " ++ nl))
    by (repeat constructor).
  split; [exact H|].
  destruct (blank_input_single_error (λ _, [Samples.configOnly]) Samples.dirname
              Samples.isAbsolute Samples.resolve Samples.noFiles
              (js "  " ++ nl) Samples.flowUri H) as (d & Hd & _).
  unfold Samples.validateWith. rewrite Hd. reflexivity.
Defined.

(** With a parse error the no-commands error does not come alone: on the
    text of [Samples.unterminatedText] nothing is discovered, and the
    validator returns two errors, the parse error and the no-commands
    error. *)
Lemma no_commands_single_error_counterexample :
  trim Samples.unterminatedText ≠ []
  ∧ concat (flat_map documentSequences [Samples.unterminated]) = []
  ∧ length (Samples.validateWith Samples.unterminated Samples.unterminatedText
              Samples.flowUri) = 2%nat
  ∧ Forall (λ d, level d = Error)
      (Samples.validateWith Samples.unterminated Samples.unterminatedText
         Samples.flowUri)
  ∧ ¬ ∃ d, Samples.validateWith Samples.unterminated Samples.unterminatedText
             Samples.flowUri = [d].
Proof.
  split; [vm_compute; discriminate|]. split; [reflexivity|].
  split; [vm_compute; reflexivity|]. split; [vm_compute; repeat constructor|].
  intros [d Hd]. apply (f_equal length) in Hd. vm_compute in Hd. discriminate Hd.
Qed.

Lemma no_commands_error_after_syntax_errors_witness :
  trim Samples.configOnlyText ≠ []
  ∧ concat (flat_map documentSequences [Samples.configOnly]) = []
  ∧ length (Samples.validateWith Samples.configOnly Samples.configOnlyText
              Samples.flowUri) = 1%nat.
Proof.
  assert (H1 : trim Samples.configOnlyText ≠ []) by (vm_compute; discriminate).
  assert (H2 : concat (flat_map documentSequences [Samples.configOnly]) = [])
    by reflexivity.
  split; [exact H1|]. split; [exact H2|].
  destruct (no_commands_error_after_syntax_errors (λ _, [Samples.configOnly])
              Samples.dirname Samples.isAbsolute Samples.resolve Samples.noFiles
              Samples.configOnlyText Samples.flowUri H1 H2)
    as (d & Hd & _).
  unfold Samples.validateWith. rewrite Hd. reflexivity.
Defined.

Lemma assertVisible_after_tapOn_warned_once_witness :
  Samples.tapThenAssertSequence !! 0%nat
  = Some (mkMaestroCommand (js "tapOn")
            (Some (Scalar (VString (js "tapOn")) (Some (2, 7)))) None)
  ∧ immediatelyAfterTapOnAt Samples.tapThenAssertSequence
      Samples.tapThenAssertContext 0
    = [Samples.adjacencyWarning]
  ∧ priorNavigationStep Samples.tapThenAssertSequence Samples.tapThenAssertContext
      (validateAssertVisibleImmediatelyAfterTapOn Samples.tapThenAssertSequence
         Samples.tapThenAssertContext ∅).2 1
    = [].
Proof.
  split; [reflexivity|].
  destruct (assertVisible_after_tapOn_warned_once Samples.tapThenAssertSequence
              Samples.tapThenAssertContext 0 _ _ eq_refl eq_refl eq_refl eq_refl)
    as (_ & _ & Hw & _ & _ & _ & _ & Hprior & _).
  split; [exact Hw | exact Hprior].
Defined.

Lemma assertVisible_prior_navigation_rule_witness :
  [mkMaestroCommand (js "assertVisible") None None] !! 0%nat
  = Some (mkMaestroCommand (js "assertVisible") None None)
  ∧ (0%nat ∉ (∅ : gset nat))
  ∧ length (priorNavigationStep [mkMaestroCommand (js "assertVisible") None None]
              Samples.tapThenAssertContext ∅ 0) = 1%nat.
Proof.
  assert (H : 0%nat ∉ (∅ : gset nat)) by apply not_elem_of_empty.
  split; [reflexivity|]. split; [exact H|].
  destruct (assertVisible_prior_navigation_rule
              [mkMaestroCommand (js "assertVisible") None None]
              Samples.tapThenAssertContext ∅ 0 _ eq_refl eq_refl H)
    as (Hwarn & _).
  rewrite Hwarn; [reflexivity|]. intros j prev Hj. lia.
Defined.

Lemma runFlow_rule_skips_witness :
  name Samples.runDynamicFlow = js "runFlow"
  ∧ validateRunFlowFileExists Samples.dirname Samples.isAbsolute Samples.resolve
      Samples.noFiles Samples.runDynamicFlow Samples.tapThenAssertContext
    = [].
Proof.
  split; [reflexivity|].
  destruct (runFlow_rule_skips Samples.dirname Samples.isAbsolute Samples.resolve
              Samples.noFiles Samples.runDynamicFlow Samples.tapThenAssertContext
              eq_refl) as (_ & _ & _ & Hdyn & _).
  apply (Hdyn (Scalar (VString (js "${DIR}/login.yaml")) (Some (11, 28)))
           (js "${DIR}/login.yaml") [] (js "DIR}/login.yaml"));
    reflexivity.
Defined.

(** * Further properties *)

(** ** Lines and columns *)

Lemma scanLineFeeds_app (a b : jsstring) (i : Z) :
  scanLineFeeds (a ++ b) i
  = scanLineFeeds a i ++ scanLineFeeds b (i + Z.of_nat (length a)).
Proof.
  revert i. induction a as [|c a IH]; intros i; simpl.
  - f_equal. lia.
  - rewrite IH. replace (i + 1 + Z.of_nat (length a)) with (i + Z.pos (Pos.of_succ_nat (length a))) by lia.
    now destruct (c =? 10)%N.
Qed.

Lemma scanLineFeeds_length (a : jsstring) (i : Z) :
  length (scanLineFeeds a i) = countLineFeeds a.
Proof.
  unfold countLineFeeds. revert i. induction a as [|c a IH]; intros i; [reflexivity|].
  cbn [scanLineFeeds]. destruct (N.eqb_spec c 10) as [->|Hc].
  - rewrite filter_cons_True by reflexivity. simpl. now rewrite IH.
  - rewrite filter_cons_False by exact Hc. apply IH.
Qed.

Lemma line_count_length (text : jsstring) :
  length (computeLineOffsets text) = S (countLineFeeds text).
Proof.
  unfold computeLineOffsets. simpl. now rewrite scanLineFeeds_length.
Qed.

(** X1.  The text has one line more than it has line feeds; a carriage
    return does not start a line. *)
Theorem line_count_is_line_feeds_plus_one (text : jsstring) :
  length (computeLineOffsets text) = S (countLineFeeds text).
Proof.
  unfold computeLineOffsets. simpl. now rewrite scanLineFeeds_length.
Qed.

Lemma offset_line_and_column (text : jsstring) (offset : Z) :
  0 <= offset →
  let p := offsetToPosition offset (computeLineOffsets text) in
  let start := offset - vscode.character p in
  vscode.line p = Z.of_nat (countLineFeeds (take (Z.to_nat offset) text))
  ∧ 0 <= start <= offset
  ∧ (start = 0 ∨ text !! Z.to_nat (start - 1) = Some 10%N)
  ∧ (∀ k : nat, start <= Z.of_nat k < offset → text !! k ≠ Some 10%N).
Proof.
  intros Hoff p start.
  pose proof (computeLineOffsets_increasing text) as Hinc.
  set (o := Z.to_nat offset).
  set (a := take o text). set (b := drop o text).
  assert (Htext : text = a ++ b) by (symmetry; apply take_drop).
  assert (Hlen : Z.of_nat (length a) <= offset).
  { subst a. rewrite length_take. lia. }
  set (front := 0 :: scanLineFeeds a 0).
  assert (Hoffs : computeLineOffsets text
                  = front ++ scanLineFeeds b (Z.of_nat (length a))).
  { unfold computeLineOffsets. rewrite Htext at 1. now rewrite scanLineFeeds_app. }
  set (l := countLineFeeds a).
  assert (Hfl : length front = S l)
    by (subst front l; simpl; now rewrite scanLineFeeds_length).
  destruct (lookup_lt_is_Some_2 front l ltac:(lia)) as [s Hs].
  assert (Hsle : 0 <= s <= Z.of_nat (length a)).
  { apply list_elem_of_lookup_2 in Hs. subst front.
    apply elem_of_cons in Hs as [->|Hs]; [lia|].
    apply scanLineFeeds_elem in Hs as (k & Hk & ->).
    apply lookup_lt_Some in Hk. lia. }
  assert (El : computeLineOffsets text !! l = Some s).
  { rewrite Hoffs. rewrite lookup_app_l by lia. exact Hs. }
  assert (Hnext : ∀ sn, computeLineOffsets text !! S l = Some sn → offset < sn).
  { intros sn. rewrite Hoffs, lookup_app_r by lia.
    replace (S l - length front)%nat with 0%nat by lia. intros Hn.
    pose proof (scanLineFeeds_gt _ _ _ _ Hn) as Hgt.
    destruct b as [|c b'] eqn:Eb; [discriminate|].
    assert (length a = o); [|lia].
    subst a. rewrite length_take. apply Nat.min_l.
    destruct (Nat.le_gt_cases o (length text)) as [|Hgt']; [assumption|].
    assert (Hnil : drop o text = []) by (apply drop_ge; lia).
    subst b. congruence. }
  assert (Hp : p = vscode.mkPosition (Z.of_nat l) (offset - s)).
  { subst p. apply offsetToPosition_at; auto. lia. }
  assert (Hstart : start = s) by (subst start; rewrite Hp; simpl; lia).
  rewrite Hstart. split; [now rewrite Hp|]. split; [lia|]. split.
  - assert (Hin : s ∈ computeLineOffsets text)
      by (eapply list_elem_of_lookup_2; eauto).
    apply computeLineOffsets_elem in Hin as [->|(i & Hi & ->)]; [now left|].
    right. now replace (Z.to_nat (Z.of_nat i + 1 - 1)) with i by lia.
  - intros k Hk Hlf.
    assert (Hin : Z.of_nat k + 1 ∈ computeLineOffsets text)
      by (apply computeLineOffsets_elem; right; eauto).
    apply list_elem_of_lookup_1 in Hin as (j & Ej).
    destruct (Nat.lt_trichotomy j l) as [Hj|[->|Hj]].
    + pose proof (Hinc _ _ _ _ Ej El Hj). lia.
    + rewrite El in Ej. injection Ej. lia.
    + destruct (computeLineOffsets text !! S l) as [sn|] eqn:En.
      * specialize (Hnext sn eq_refl).
        destruct (decide (S l = j)) as [<-|Hne]; [rewrite En in Ej; injection Ej; lia|].
        pose proof (Hinc _ _ _ _ En Ej ltac:(lia)). lia.
      * apply lookup_ge_None in En. apply lookup_lt_Some in Ej. lia.
Qed.

(** X2.  An offset from 0 on resolves to the number of line feeds before it
    as line, and to its distance from the last of them (from the start of
    the text when there is none) as column. *)
Theorem line_is_line_feeds_before_offset (text : jsstring) (offset : Z) :
  0 <= offset →
  let p := offsetToPosition offset (computeLineOffsets text) in
  let start := offset - vscode.character p in
  vscode.line p = Z.of_nat (countLineFeeds (take (Z.to_nat offset) text))
  ∧ 0 <= start <= offset
  ∧ (start = 0 ∨ text !! Z.to_nat (start - 1) = Some 10%N)
  ∧ (∀ k : nat, start <= Z.of_nat k < offset → text !! k ≠ Some 10%N).
Proof. apply offset_line_and_column. Qed.

Lemma line_is_line_feeds_before_offset_witness :
  0 <= 4
  ∧ vscode.line (offsetToPosition 4 (computeLineOffsets (js "ab" ++ nl ++ js "cd")))
    = 1.
Proof.
  split; [lia|].
  destruct (line_is_line_feeds_before_offset (js "ab" ++ nl ++ js "cd") 4 ltac:(lia))
    as (Hline & _).
  rewrite Hline. reflexivity.
Defined.

Lemma offsetToPosition_order (text : jsstring) (o1 o2 : Z) :
  o1 <= o2 →
  let offs := computeLineOffsets text in
  positionLe (offsetToPosition o1 offs) (offsetToPosition o2 offs)
  ∧ vscode.isBefore (offsetToPosition o2 offs) (offsetToPosition o1 offs) = false
  ∧ (o1 < 0 → offsetToPosition o1 offs = vscode.mkPosition 0 0)
  ∧ 0 <= vscode.line (offsetToPosition o1 offs) < Z.of_nat (length offs)
  ∧ 0 <= vscode.character (offsetToPosition o1 offs).
Proof.
  intros Hle offs.
  pose proof (computeLineOffsets_increasing text) as Hinc. fold offs in Hinc.
  assert (H0 : offs !! 0%nat = Some 0) by reflexivity.
  assert (Hres : ∀ o, (o < 0 ∧ offsetToPosition o offs = vscode.mkPosition 0 0)
                      ∨ (0 <= o ∧ ∃ (l : nat) s,
                           offs !! l = Some s ∧ 0 <= s <= o
                           ∧ offsetToPosition o offs
                             = vscode.mkPosition (Z.of_nat l) (o - s)
                           ∧ (∀ (j : nat) sj, offs !! j = Some sj → sj <= o → (j <= l)%nat))).
  { intros o. destruct (Z.ltb_spec o 0) as [Hneg|Hpos].
    - left. split; [exact Hneg|]. unfold offsetToPosition.
      destruct (Z.ltb_spec o 0); [reflexivity | lia].
    - right. split; [exact Hpos|].
      destruct (line_of_offset offs o Hinc H0 Hpos) as (l & s & El & Hs & Hnext & Hmax).
      exists l, s. repeat split; auto.
      + destruct l as [|l']; [rewrite H0 in El; injection El; lia|].
        pose proof (Hinc _ _ _ _ H0 El ltac:(lia)). lia.
      + now apply offsetToPosition_at. }
  assert (Hple : positionLe (offsetToPosition o1 offs) (offsetToPosition o2 offs)).
  { unfold positionLe.
    destruct (Hres o1) as [[Hn1 ->]|(Hp1 & l1 & s1 & E1 & Hs1 & -> & Hmax1)];
      destruct (Hres o2) as [[Hn2 ->]|(Hp2 & l2 & s2 & E2 & Hs2 & -> & Hmax2)];
      cbn [vscode.line vscode.character]; try lia.
    pose proof (Hmax2 l1 s1 E1 ltac:(lia)) as Hl.
    destruct (decide (l1 = l2)) as [->|Hne]; [|lia].
    right. split; [reflexivity|]. rewrite E1 in E2. injection E2. lia. }
  split; [exact Hple|]. split; [|split; [|split]].
  - unfold vscode.isBefore. destruct Hple as [Hlt|[Heq Hc]].
    + destruct (Z.ltb_spec (vscode.line (offsetToPosition o2 offs))
                  (vscode.line (offsetToPosition o1 offs))); [lia|].
      destruct (Z.eqb_spec (vscode.line (offsetToPosition o2 offs))
                  (vscode.line (offsetToPosition o1 offs))); [lia|reflexivity].
    + rewrite Heq, Z.ltb_irrefl, Z.eqb_refl. simpl. apply Z.ltb_ge. exact Hc.
  - intros Hn. destruct (Hres o1) as [[_ Hz]|[Hp _]]; [exact Hz | lia].
  - destruct (Hres o1) as [[_ ->]|(_ & l & s & E & Hs & -> & _)];
      cbn [vscode.line vscode.character].
    + apply lookup_lt_Some in H0. lia.
    + apply lookup_lt_Some in E. lia.
  - destruct (Hres o1) as [[_ ->]|(_ & l & s & E & Hs & -> & _)];
      cbn [vscode.line vscode.character]; lia.
Qed.

(** X3.  Resolution keeps the order of offsets: a smaller offset never
    resolves to a later position; a negative offset resolves to line 0,
    column 0; and no resolved line or column is negative. *)
Theorem offsetToPosition_monotone (text : jsstring) (o1 o2 : Z) :
  o1 <= o2 →
  let offs := computeLineOffsets text in
  positionLe (offsetToPosition o1 offs) (offsetToPosition o2 offs)
  ∧ vscode.isBefore (offsetToPosition o2 offs) (offsetToPosition o1 offs) = false
  ∧ (o1 < 0 → offsetToPosition o1 offs = vscode.mkPosition 0 0)
  ∧ 0 <= vscode.line (offsetToPosition o1 offs) < Z.of_nat (length offs)
  ∧ 0 <= vscode.character (offsetToPosition o1 offs).
Proof. apply offsetToPosition_order. Qed.

Lemma offsetToPosition_monotone_witness :
  2 <= 4
  ∧ positionLe (offsetToPosition 2 (computeLineOffsets (js "ab" ++ nl ++ js "cd")))
               (offsetToPosition 4 (computeLineOffsets (js "ab" ++ nl ++ js "cd"))).
Proof.
  split; [lia|].
  apply (offsetToPosition_monotone (js "ab" ++ nl ++ js "cd") 2 4). lia.
Defined.

(** ** Ranges of diagnostics *)

Lemma rangeFromNode_shape (text : jsstring) (uri : Uri) (node : option Node) :
  let offs := computeLineOffsets text in
  let rg := rangeFromNode node (mkRuleContext text uri offs) in
  positionLe (vscode.start rg) (vscode.end_ rg)
  ∧ 0 <= vscode.line (vscode.start rg)
  ∧ vscode.line (vscode.end_ rg) < Z.of_nat (length offs)
  ∧ 0 <= vscode.character (vscode.start rg)
  ∧ (node ≫= nodeRange = None →
     rg = vscode.mkRange (vscode.mkPosition 0 0) (vscode.mkPosition 0 0))
  ∧ (∀ r0 r1, node ≫= nodeRange = Some (r0, r1) →
       let startOffset := Z.max 0 (Z.min (jsLength text) r0) in
       let endOffset := Z.max startOffset (Z.min (jsLength text) r1) in
       rg = vscode.mkRange (offsetToPosition startOffset offs)
                           (offsetToPosition endOffset offs)
       ∧ (r1 <= r0 → vscode.end_ rg = vscode.start rg)).
Proof.
  rename text into txt. intros offs rg. subst rg. unfold rangeFromNode.
  cbn [text lineOffsets].
  destruct (node ≫= nodeRange) as [[r0 r1]|].
  - set (startOffset := Z.max 0 (Z.min (jsLength txt) r0)).
    set (endOffset := Z.max startOffset (Z.min (jsLength txt) r1)).
    destruct (offsetToPosition_order txt startOffset endOffset ltac:(lia))
      as (Hle & Hnb & _ & Hl1 & Hc1).
    destruct (offsetToPosition_order txt endOffset endOffset ltac:(lia))
      as (_ & _ & _ & Hl2 & _).
    fold offs in Hle, Hnb, Hl1, Hc1, Hl2.
    assert (Hrg : vscode.newRange (offsetToPosition startOffset offs)
                    (offsetToPosition endOffset offs)
                  = vscode.mkRange (offsetToPosition startOffset offs)
                      (offsetToPosition endOffset offs)).
    { unfold vscode.newRange.
      destruct (vscode.isBefore (offsetToPosition startOffset offs)
                  (offsetToPosition endOffset offs)) eqn:Hb; [reflexivity|].
      destruct Hle as [Hlt|[Heq Hc]].
      - unfold vscode.isBefore in Hb. apply Z.ltb_lt in Hlt. rewrite Hlt in Hb.
        discriminate.
      - destruct (offsetToPosition startOffset offs) as [l1 c1] eqn:E1.
        destruct (offsetToPosition endOffset offs) as [l2 c2] eqn:E2.
        cbn in Heq, Hc, Hb. subst l2.
        unfold vscode.isBefore in Hb.
        cbn [vscode.line vscode.character] in Hb.
        rewrite Z.ltb_irrefl, Z.eqb_refl in Hb. simpl in Hb.
        apply Z.ltb_ge in Hb. now replace c2 with c1 by lia. }
    rewrite Hrg. cbn [vscode.start vscode.end_].
    split; [exact Hle|]. split; [lia|]. split; [lia|]. split; [lia|].
    split; [discriminate|].
    intros r0' r1' Hr. injection Hr as <- <-. split; [reflexivity|].
    intros Hrev. cbn [vscode.start vscode.end_].
    replace endOffset with startOffset; [reflexivity|]. subst endOffset. lia.
  - cbn. split; [right; lia|]. repeat split; try lia; discriminate.
Qed.

(** X4.  The range of a node, in the context the validator builds for a
    text, runs from the resolved start offset to the resolved end offset,
    both clamped into the text, and is never reversed: a node whose end
    offset is not after its start offset gets an empty range, a node
    without offsets the empty range at line 0, column 0; the lines of the
    range are lines of the text. *)
Theorem rangeFromNode_well_formed (text : jsstring) (uri : Uri) (node : option Node) :
  let offs := computeLineOffsets text in
  let rg := rangeFromNode node (mkRuleContext text uri offs) in
  positionLe (vscode.start rg) (vscode.end_ rg)
  ∧ 0 <= vscode.line (vscode.start rg)
  ∧ vscode.line (vscode.end_ rg) < Z.of_nat (length offs)
  ∧ 0 <= vscode.character (vscode.start rg)
  ∧ (node ≫= nodeRange = None →
     rg = vscode.mkRange (vscode.mkPosition 0 0) (vscode.mkPosition 0 0))
  ∧ (∀ r0 r1, node ≫= nodeRange = Some (r0, r1) →
       let startOffset := Z.max 0 (Z.min (jsLength text) r0) in
       let endOffset := Z.max startOffset (Z.min (jsLength text) r1) in
       rg = vscode.mkRange (offsetToPosition startOffset offs)
                           (offsetToPosition endOffset offs)
       ∧ (r1 <= r0 → vscode.end_ rg = vscode.start rg)).
Proof. apply rangeFromNode_shape. Qed.

(** X5.  The line a diagnostic reports for a node is one more than the
    number of line feeds before the node's start offset, clamped into the
    text; for a node without offsets, and without a node, it is line 1. *)
Theorem diagnostic_line_counts_line_feeds (text : jsstring) (uri : Uri)
    (lvl : ValidationLevel) (rawMessage : jsstring) (node : option Node)
    (commandName : option jsstring) :
  let context := mkRuleContext text uri (computeLineOffsets text) in
  let d := createResult context lvl rawMessage node commandName in
  (node ≫= nodeRange = None → line d = 1)
  ∧ (∀ r0 r1, node ≫= nodeRange = Some (r0, r1) →
       line d
       = Z.of_nat (S (countLineFeeds
                        (take (Z.to_nat (Z.max 0 (Z.min (jsLength text) r0))) text))))
  ∧ 1 <= line d <= Z.of_nat (S (countLineFeeds text)).
Proof.
  intros context d.
  destruct (rangeFromNode_shape text uri node) as (Hle & Hl0 & Hl1 & _ & Hnone & Hsome).
  fold context in Hle, Hl0, Hl1, Hnone, Hsome.
  subst d. unfold createResult. cbn [line].
  split; [|split].
  - intros Hn. now rewrite (Hnone Hn).
  - intros r0 r1 Hr. destruct (Hsome r0 r1 Hr) as [-> _]. cbn [vscode.start].
    destruct (offset_line_and_column text (Z.max 0 (Z.min (jsLength text) r0))
                ltac:(lia)) as (-> & _).
    lia.
  - rewrite <- line_count_length.
    destruct Hle as [Hlt|[Heq _]]; lia.
Qed.

(** ** Extraction and discovery *)

Lemma commandOfItem_spec (item : option Node) (cmd : MaestroCommand) :
  commandOfItem item = Some cmd →
  trim (name cmd) ≠ []
  ∧ ((∃ r, item = Some (Scalar (VString (name cmd)) r)
           ∧ nameNode cmd = item ∧ valueNode cmd = None)
     ∨ (∃ kr rest mr,
          item = Some (YAMLMap ((Some (Scalar (VString (name cmd)) kr),
                                 valueNode cmd) :: rest) mr)
          ∧ nameNode cmd = Some (Scalar (VString (name cmd)) kr))).
Proof.
  unfold commandOfItem.
  destruct item as [[[s| | |] r|[|[[[[k| | |] kr| | |]|] v] rest] mr| |]|];
    try discriminate.
  - destruct (Z.ltb_spec 0 (jsLength (trim s))) as [Hlt|]; [|discriminate].
    intros H. injection H as <-. cbn [name nameNode valueNode]. split.
    + intros E. rewrite E in Hlt. unfold jsLength in Hlt. simpl in Hlt. lia.
    + left. eauto.
  - destruct (Z.ltb_spec 0 (jsLength (trim k))) as [Hlt|]; [|discriminate].
    intros H. injection H as <-. cbn [name nameNode valueNode]. split.
    + intros E. rewrite E in Hlt. unfold jsLength in Hlt. simpl in Hlt. lia.
    + right. eauto.
Qed.

Lemma trim_nonempty (s : jsstring) : trim s ≠ [] → s ≠ [].
Proof. intros H ->. now apply H. Qed.

(** X6.  Every extracted command has a name that is not blank, and a name
    node that is the string scalar holding that name; it comes either from
    a bare scalar item, and then has no value, or from the first pair of a
    map item, whose value it takes. *)
Theorem extracted_command_is_well_named
    (items : list (option Node)) (cmd : MaestroCommand) :
  cmd ∈ extractCommandsFromSequence items →
  trim (name cmd) ≠ []
  ∧ name cmd ≠ []
  ∧ ((∃ r, Some (Scalar (VString (name cmd)) r) ∈ items
           ∧ nameNode cmd = Some (Scalar (VString (name cmd)) r)
           ∧ valueNode cmd = None)
     ∨ (∃ kr rest mr,
          Some (YAMLMap ((Some (Scalar (VString (name cmd)) kr),
                          valueNode cmd) :: rest) mr) ∈ items
          ∧ nameNode cmd = Some (Scalar (VString (name cmd)) kr))).
Proof.
  unfold extractCommandsFromSequence. intros Hin.
  apply list_elem_of_omap in Hin as (item & Hitem & Hcmd).
  apply commandOfItem_spec in Hcmd as (Hname & Hshape).
  split; [exact Hname|]. split; [now apply trim_nonempty|].
  destruct Hshape as [(r & -> & Hn & Hv)|(kr & rest & mr & -> & Hn)].
  - left. exists r. auto.
  - right. exists kr, rest, mr. auto.
Qed.

Lemma extracted_command_is_well_named_witness :
  mkMaestroCommand (js "tapOn") (Some Samples.nestedTapOn) None
    ∈ (extractCommandsFromSequence [Some Samples.nestedTapOn])
  ∧ trim (js "tapOn") ≠ [].
Proof.
  assert (H : mkMaestroCommand (js "tapOn") (Some Samples.nestedTapOn) None
              ∈ (extractCommandsFromSequence [Some Samples.nestedTapOn]))
    by (vm_compute; left).
  split; [exact H|].
  exact (proj1 (extracted_command_is_well_named _ _ H)).
Defined.

(** X7.  Extraction keeps the order of the items: the commands of two lists
    of items put end to end are the commands of the first followed by those
    of the second; there is at most one command per item, and absent items,
    lists and aliases give none. *)
Theorem extraction_keeps_order (items1 items2 : list (option Node)) :
  extractCommandsFromSequence (items1 ++ items2)
  = extractCommandsFromSequence items1 ++ extractCommandsFromSequence items2
  ∧ (length (extractCommandsFromSequence items1) <= length items1)%nat
  ∧ (Forall (λ item, ∀ v r, item ≠ Some (Scalar v r))  items1 →
     Forall (λ item, ∀ pairs r, item ≠ Some (YAMLMap pairs r)) items1 →
     extractCommandsFromSequence items1 = []).
Proof.
  unfold extractCommandsFromSequence. split; [apply omap_app|]. split.
  - induction items1 as [|item rest IH]; [reflexivity|].
    change (omap commandOfItem (item :: rest))
      with (match commandOfItem item with
            | Some c => c :: omap commandOfItem rest
            | None => omap commandOfItem rest
            end).
    destruct (commandOfItem item); cbn [length]; lia.
  - intros Hs Hm. induction items1 as [|item rest IH]; [reflexivity|].
    inversion Hs as [|? ? Hs1 Hs2]; inversion Hm as [|? ? Hm1 Hm2]; subst.
    change (omap commandOfItem (item :: rest))
      with (match commandOfItem item with
            | Some c => c :: omap commandOfItem rest
            | None => omap commandOfItem rest
            end).
    rewrite (IH Hs2 Hm2).
    destruct item as [[v r|pairs r|its r|a r]|]; try reflexivity.
    + now destruct (Hs1 v r).
    + now destruct (Hm1 pairs r).
Qed.

(** Induction on a node through the map values that are maps. *)
Lemma Node_map_ind (P : Node → Prop) :
  (∀ items r,
     Forall (λ p : Pair, ∀ n, p.2 = Some n → (∃ sub sr, n = YAMLMap sub sr) → P n)
            items →
     P (YAMLMap items r)) →
  (∀ n, (∀ items r, n ≠ YAMLMap items r) → P n) →
  ∀ n, P n.
Proof.
  intros Hmap Hother. fix IH 1. intros [v r|items r|items r|a r].
  - apply Hother. discriminate.
  - apply Hmap. induction items as [|[k [n|]] rest IHl]; constructor.
    + intros n' Hn _. cbn in Hn. injection Hn as <-. apply IH.
    + exact IHl.
    + intros n' Hn. discriminate Hn.
    + exact IHl.
  - apply Hother. discriminate.
  - apply Hother. discriminate.
Qed.

Lemma collectNested_sound (root : Node) (s : list MaestroCommand) :
  s ∈ collectNestedCommandSequencesFromMap root →
  ∃ items r k commands cr,
    mapReachable root (YAMLMap items r)
    ∧ (k, Some (YAMLSeq commands cr)) ∈ items
    ∧ keyName k = Some (js "commands")
    ∧ s = extractCommandsFromSequence commands
    ∧ s ≠ [].
Proof.
  revert s. induction root as [items r IH|n Hn] using Node_map_ind; intros s Hs.
  - rewrite collectNested_unfold in Hs.
    apply list_elem_of_In, in_flat_map in Hs as ([k v] & Hp & Hin).
    apply list_elem_of_In in Hp. apply in_app_or in Hin as [Hown|Hsub].
    + unfold commandsOfPair in Hown. cbn [fst snd] in Hown.
      destruct (keyName k) as [key|] eqn:Ek; [|destruct Hown].
      destruct v as [[| |commands cr|]|]; try destruct Hown.
      destruct (bool_decide_reflect (key = js "commands")) as [->|]; [|destruct Hown].
      destruct (extractCommandsFromSequence commands) as [|c cs] eqn:Ec;
        [destruct Hown|].
      destruct Hown as [<-|[]].
      exists items, r, k, commands, cr.
      split; [constructor|]. split; [exact Hp|]. split; [exact Ek|].
      split; [now rewrite Ec | discriminate].
    + cbn [snd] in Hsub. destruct v as [[|sub sr| |]|]; try destruct Hsub.
      rewrite Forall_forall in IH.
      destruct (IH (k, Some (YAMLMap sub sr)) Hp (YAMLMap sub sr) eq_refl
                  ltac:(eauto) s ltac:(now apply list_elem_of_In))
        as (items' & r' & k' & commands & cr & Hreach & Hin & Hkey & Hs' & Hne).
      exists items', r', k', commands, cr. repeat split; auto.
      eapply reach_value; eauto.
  - destruct n; try (inversion Hs; fail). now destruct (Hn items range0).
Qed.

(** X8.  The sequences collected under a map are exactly the non-empty
    command lists extracted from the lists that sit under a key [commands]
    in that map or in a map reached from it through map values; nothing is
    collected under a node that is not a map. *)
Theorem collected_sequences_characterised (root : Node) (s : list MaestroCommand) :
  (s ∈ collectNestedCommandSequencesFromMap root ↔
   ∃ items r k commands cr,
     mapReachable root (YAMLMap items r)
     ∧ (k, Some (YAMLSeq commands cr)) ∈ items
     ∧ keyName k = Some (js "commands")
     ∧ s = extractCommandsFromSequence commands
     ∧ s ≠ [])
  ∧ ((∀ items r, root ≠ YAMLMap items r) →
     collectNestedCommandSequencesFromMap root = []).
Proof.
  split; [split; [apply collectNested_sound|]|].
  - intros (items & r & k & commands & cr & Hreach & Hin & Hkey & -> & Hne).
    eapply collectNested_finds; eauto.
  - intros Hn. destruct root; try reflexivity. now destruct (Hn items range0).
Qed.

Lemma documentSequences_nonempty (doc : Document) (s : list MaestroCommand) :
  s ∈ documentSequences doc →
  s ≠ [] ∧ ∃ items, s = extractCommandsFromSequence items.
Proof.
  unfold documentSequences. destruct (contents doc) as [root|]; [|inversion 1].
  intros Hs. apply elem_of_app in Hs as [Htop|Hnested].
  - destruct root as [|?|items r|]; try (inversion Htop; fail).
    destruct (extractCommandsFromSequence items) as [|c cs] eqn:E;
      [inversion Htop|].
    cbn in Htop. apply list_elem_of_singleton in Htop as ->.
    split; [discriminate|]. now exists items.
  - destruct root as [|items r| |]; try (inversion Hnested; fail).
    apply collectNested_sound in Hnested
      as (_ & _ & _ & commands & _ & _ & _ & _ & -> & Hne).
    split; [exact Hne|]. now exists commands.
Qed.

Lemma concat_nil_nonempty {A} (ls : list (list A)) :
  Forall (λ l, l ≠ []) ls → concat ls = [] → ls = [].
Proof.
  destruct 1 as [|l ls Hl _]; [reflexivity|]. simpl. intros H.
  apply app_eq_nil in H as [-> _]. congruence.
Qed.

(** X9.  No discovered sequence is empty, and every discovered command has
    a name that is not blank; so there is no command at all exactly when no
    sequence is discovered. *)
Theorem discovered_sequences_are_nonempty (documents : list Document) :
  let commandSequences := flat_map documentSequences documents in
  Forall (λ s, s ≠ []) commandSequences
  ∧ Forall (λ cmd, trim (name cmd) ≠ [] ∧ name cmd ≠ []) (concat commandSequences)
  ∧ (concat commandSequences = [] ↔ commandSequences = []).
Proof.
  intros commandSequences.
  assert (Hne : Forall (λ s, s ≠ [] ∧ ∃ items, s = extractCommandsFromSequence items)
                  commandSequences).
  { apply Forall_flat_map, Forall_forall. intros doc _.
    apply Forall_forall. intros s Hs. eapply documentSequences_nonempty.
    first [exact Hs | apply list_elem_of_In; exact Hs]. }
  split; [|split].
  - eapply Forall_impl; [exact Hne|]. now intros s [H _].
  - apply Forall_concat. eapply Forall_impl; [exact Hne|].
    intros s [_ [items ->]]. apply Forall_forall. intros cmd Hcmd.
    assert (Hcmd' : cmd ∈ omap commandOfItem items)
      by first [exact Hcmd | apply list_elem_of_In; exact Hcmd].
    apply list_elem_of_omap in Hcmd' as (item & _ & Hc).
    apply commandOfItem_spec in Hc as [Hname _].
    split; [exact Hname | now apply trim_nonempty].
  - split; [|now intros ->].
    apply concat_nil_nonempty. eapply Forall_impl; [exact Hne|]. now intros s [H _].
Qed.

(** ** The other command rules *)

(** X10.  For a command named [inputText] the value rule passes exactly
    when the value is a string scalar, the empty string included, or a map
    whose [text] key holds a string scalar; otherwise it reports one
    error. *)
Theorem inputText_value_rule (cmd : MaestroCommand) (context : RuleContext) :
  name cmd = js "inputText" →
  let rule := validateInputTextValue cmd context in
  (rule = [] ↔
     (∃ s r, valueNode cmd = Some (Scalar (VString s) r))
     ∨ (∃ items r s r',
          valueNode cmd = Some (YAMLMap items r)
          ∧ bindsKey items (js "text") (Some (Scalar (VString s) r'))))
  ∧ (∀ d, d ∈ rule →
       rule = [d] ∧ level d = Error ∧ command d = Some (js "inputText"))
  ∧ (∀ r, valueNode cmd = Some (Scalar (VString []) r) → rule = []).
Proof.
  intros Hname rule. subst rule. unfold validateInputTextValue.
  rewrite Hname, bool_decide_true by reflexivity. cbn [negb].
  assert (Hone : ∀ (d x : ValidationResult), d ∈ [x] → level x = Error →
                   command x = Some (js "inputText") →
                   [x] = [d] ∧ level d = Error ∧ command d = Some (js "inputText")).
  { intros d x Hd. apply list_elem_of_singleton in Hd. now subst d. }
  destruct (valueNode cmd) as [[v r|items r|items r|a r]|].
  - destruct v as [s| | |].
    + split; [|split; [intros d Hd; inversion Hd | reflexivity]].
      split; [intros _; left; eauto | reflexivity].
    + split; [|split; [intros d Hd; now apply (Hone d _ Hd) | discriminate]].
      split; [discriminate|].
      intros [(s & r' & H)|(items & r' & s & r'' & H & _)]; discriminate.
    + split; [|split; [intros d Hd; now apply (Hone d _ Hd) | discriminate]].
      split; [discriminate|].
      intros [(s & r' & H)|(items & r' & s & r'' & H & _)]; discriminate.
    + split; [|split; [intros d Hd; now apply (Hone d _ Hd) | discriminate]].
      split; [discriminate|].
      intros [(s & r' & H)|(items & r' & s & r'' & H & _)]; discriminate.
  - destruct (findMapValueByKey items (js "text")) as [n|] eqn:E.
    + destruct n as [[s| | |] r'| | |];
        try (split; [|split; [intros d Hd; now apply (Hone d _ Hd) | discriminate]];
             split; [discriminate|];
             intros [(s' & r'' & H)|(items' & r'' & s' & r3 & H & Hb)];
             [discriminate|];
             injection H as <- <-; apply findMapValueByKey_binds in Hb;
             congruence).
      split; [|split; [intros d Hd; inversion Hd | discriminate]].
      split; [intros _|reflexivity]. right. exists items, r, s, r'.
      split; [reflexivity|]. now apply findMapValueByKey_binds.
    + split; [|split; [intros d Hd; now apply (Hone d _ Hd) | discriminate]].
      split; [discriminate|].
      intros [(s' & r'' & H)|(items' & r'' & s' & r3 & H & Hb)]; [discriminate|].
      injection H as <- <-. apply findMapValueByKey_binds in Hb. congruence.
  - split; [|split; [intros d Hd; now apply (Hone d _ Hd) | discriminate]].
    split; [discriminate|].
    intros [(s & r' & H)|(items' & r' & s & r'' & H & _)]; discriminate.
  - split; [|split; [intros d Hd; now apply (Hone d _ Hd) | discriminate]].
    split; [discriminate|].
    intros [(s & r' & H)|(items' & r' & s & r'' & H & _)]; discriminate.
  - split; [|split; [intros d Hd; now apply (Hone d _ Hd) | discriminate]].
    split; [discriminate|].
    intros [(s & r' & H)|(items' & r' & s & r'' & H & _)]; discriminate.
Qed.

Lemma inputText_value_rule_witness :
  name (mkMaestroCommand (js "inputText") None
          (Some (Scalar (VString []) (Some (13, 15))))) = js "inputText"
  ∧ validateInputTextValue
      (mkMaestroCommand (js "inputText") None
         (Some (Scalar (VString []) (Some (13, 15)))))
      Samples.tapThenAssertContext = [].
Proof.
  split; [reflexivity|].
  destruct (inputText_value_rule
              (mkMaestroCommand (js "inputText") None
                 (Some (Scalar (VString []) (Some (13, 15)))))
              Samples.tapThenAssertContext eq_refl) as (_ & _ & Hempty).
  apply (Hempty (Some (13, 15))). reflexivity.
Defined.

(** X11.  For a command named [conditional] the rule passes exactly when
    the value is a map whose [commands] key holds a list with at least one
    item; otherwise it reports one error, on the command's name. *)
Theorem conditional_commands_rule (cmd : MaestroCommand) (context : RuleContext) :
  name cmd = js "conditional" →
  let rule := validateConditionalHasCommands cmd context in
  (rule = [] ↔
     ∃ items r c cs cr,
       valueNode cmd = Some (YAMLMap items r)
       ∧ bindsKey items (js "commands") (Some (YAMLSeq (c :: cs) cr)))
  ∧ (∀ d, d ∈ rule →
       rule = [d] ∧ level d = Error ∧ command d = Some (js "conditional")
       ∧ range d = rangeFromNode (nameNode cmd) context).
Proof.
  intros Hname rule. subst rule. unfold validateConditionalHasCommands.
  rewrite Hname, bool_decide_true by reflexivity. cbn [negb].
  assert (Hone : ∀ (d x : ValidationResult), d ∈ [x] → level x = Error →
                   command x = Some (js "conditional") →
                   range x = rangeFromNode (nameNode cmd) context →
                   [x] = [d] ∧ level d = Error ∧ command d = Some (js "conditional")
                   ∧ range d = rangeFromNode (nameNode cmd) context).
  { intros d x Hd. apply list_elem_of_singleton in Hd. now subst d. }
  destruct (valueNode cmd) as [[v r|items r|items r|a r]|];
    try (split; [split; [discriminate | intros (? & ? & ? & ? & ? & H & _); discriminate]
                | intros d Hd; now apply (Hone d _ Hd)]).
  destruct (findMapValueByKey items (js "commands")) as [n|] eqn:E.
  - destruct n as [| |[|c cs] cr|];
      try (split; [split; [discriminate|];
                   intros (items' & r' & c' & cs' & cr' & H & Hb);
                   injection H as <- <-; apply findMapValueByKey_binds in Hb;
                   congruence
                  | intros d Hd; now apply (Hone d _ Hd)]).
    split; [|intros d Hd; inversion Hd].
    split; [intros _|reflexivity]. exists items, r, c, cs, cr.
    split; [reflexivity|]. now apply findMapValueByKey_binds.
  - split; [split; [discriminate|] | intros d Hd; now apply (Hone d _ Hd)].
    intros (items' & r' & c' & cs' & cr' & H & Hb).
    injection H as <- <-. apply findMapValueByKey_binds in Hb. congruence.
Qed.

Lemma conditional_commands_rule_witness :
  name (mkMaestroCommand (js "conditional") (Some Samples.conditionalKey)
          (Some Samples.conditionalValue)) = js "conditional"
  ∧ validateConditionalHasCommands
      (mkMaestroCommand (js "conditional") (Some Samples.conditionalKey)
         (Some Samples.conditionalValue))
      Samples.tapThenAssertContext = [].
Proof.
  split; [reflexivity|].
  apply (conditional_commands_rule
           (mkMaestroCommand (js "conditional") (Some Samples.conditionalKey)
              (Some Samples.conditionalValue))
           Samples.tapThenAssertContext eq_refl).
  eexists _, _, _, _, _. split; [reflexivity|]. apply binds_here. reflexivity.
Defined.

(** X12.  The unknown-command rule passes exactly on the thirty-four known
    names, compared as they are written; on any other name it reports one
    error that quotes the name. *)
Theorem unknown_command_rule (cmd : MaestroCommand) (context : RuleContext) :
  let rule := validateUnknownCommandName cmd context in
  (rule = [] ↔
     name cmd
     ∈ [ js "tapOn"; js "longPressOn"; js "assertVisible"; js "assertNotVisible";
         js "assertTrue"; js "assertFalse"; js "assertThat"; js "launchApp";
         js "inputText"; js "clearInput"; js "eraseText"; js "scroll"; js "swipe";
         js "scrollUntilVisible"; js "scrollToIndex"; js "scrollUntil";
         js "pressKey"; js "hideKeyboard"; js "waitForVisible";
         js "waitForNotVisible"; js "waitForAnimationToEnd"; js "runScript";
         js "runFlow"; js "runCommand"; js "takeScreenshot"; js "openLink";
         js "back"; js "stopApp"; js "copyTextFrom"; js "pasteText";
         js "extendState"; js "evalScript"; js "conditional"; js "repeat" ])
  ∧ (∀ d, d ∈ rule →
       rule = [d] ∧ level d = Error ∧ command d = Some (name cmd)
       ∧ range d = rangeFromNode (nameNode cmd) context
       ∧ ∃ a b, message d = a ++ dq ++ name cmd ++ dq ++ b).
Proof.
  intros rule. subst rule. unfold validateUnknownCommandName.
  destruct (bool_decide_reflect (name cmd ∈ KNOWN_COMMANDS)) as [Hk|Hk].
  - split; [|intros d Hd; inversion Hd].
    split; [intros _|reflexivity].
    unfold KNOWN_COMMANDS in Hk. now rewrite elem_of_list_to_set in Hk.
  - split.
    + split; [discriminate|]. intros Hin. exfalso. apply Hk.
      unfold KNOWN_COMMANDS. now rewrite elem_of_list_to_set.
    + intros d Hd. apply list_elem_of_singleton in Hd. subst d.
      repeat split. unfold createResult. cbn [message].
      eexists (messagePrefix _ _ ++ js "Unknown Maestro command "), _.
      rewrite <- !app_assoc. reflexivity.
Qed.

(** X13.  For a command named [takeScreenshot] the name rule passes exactly
    when the value is a non-blank string scalar or a map whose [name] key
    holds a non-blank string; otherwise it reports one diagnostic, and that
    one is a warning. *)
Theorem takeScreenshot_name_rule (cmd : MaestroCommand) (context : RuleContext) :
  name cmd = js "takeScreenshot" →
  let rule := validateTakeScreenshotHasName cmd context in
  (rule = [] ↔
     (∃ s r, valueNode cmd = Some (Scalar (VString s) r) ∧ trim s ≠ [])
     ∨ (∃ items r, valueNode cmd = Some (YAMLMap items r)
                   ∧ holdsNonBlankString items (js "name")))
  ∧ (∀ d, d ∈ rule →
       rule = [d] ∧ level d = Warning ∧ command d = Some (js "takeScreenshot")).
Proof.
  intros Hname rule. subst rule. unfold validateTakeScreenshotHasName.
  rewrite Hname, bool_decide_true by reflexivity. cbn [negb].
  assert (Hone : ∀ (d x : ValidationResult), d ∈ [x] → level x = Warning →
                   command x = Some (js "takeScreenshot") →
                   [x] = [d] ∧ level d = Warning
                   ∧ command d = Some (js "takeScreenshot")).
  { intros d x Hd. apply list_elem_of_singleton in Hd. now subst d. }
  destruct (valueNode cmd) as [[v r|items r|items r|a r]|].
  - destruct (isNonBlankString v) eqn:E.
    + apply isNonBlankString_spec in E as (s & -> & Hs).
      split; [|intros d Hd; inversion Hd].
      split; [intros _; left; eauto | reflexivity].
    + split; [|intros d Hd; now apply (Hone d _ Hd)].
      split; [discriminate|].
      intros [(s & r' & H & Hs)|(items & r' & H & _)]; [|discriminate].
      injection H as -> ->.
      assert (isNonBlankString (VString s) = true)
        by (apply isNonBlankString_spec; eauto).
      congruence.
  - destruct (isNonBlankStringNode (findMapValueByKey items (js "name"))) eqn:E.
    + apply isNonBlankStringNode_spec in E.
      split; [|intros d Hd; inversion Hd].
      split; [intros _; right; eauto | reflexivity].
    + split; [|intros d Hd; now apply (Hone d _ Hd)].
      split; [discriminate|].
      intros [(s & r' & H & _)|(items' & r' & H & Hh)]; [discriminate|].
      injection H as <- <-. apply isNonBlankStringNode_spec in Hh. congruence.
  - split; [|intros d Hd; now apply (Hone d _ Hd)].
    split; [discriminate|].
    intros [(s & r' & H & _)|(items' & r' & H & _)]; discriminate.
  - split; [|intros d Hd; now apply (Hone d _ Hd)].
    split; [discriminate|].
    intros [(s & r' & H & _)|(items' & r' & H & _)]; discriminate.
  - split; [|intros d Hd; now apply (Hone d _ Hd)].
    split; [discriminate|].
    intros [(s & r' & H & _)|(items' & r' & H & _)]; discriminate.
Qed.

Lemma takeScreenshot_name_rule_witness :
  name (mkMaestroCommand (js "takeScreenshot") None None) = js "takeScreenshot"
  ∧ Forall (λ d, level d = Warning)
      (validateTakeScreenshotHasName
         (mkMaestroCommand (js "takeScreenshot") None None)
         Samples.tapThenAssertContext).
Proof.
  split; [reflexivity|]. apply Forall_forall. intros d Hd.
  assert (Hd' : d ∈ validateTakeScreenshotHasName
                      (mkMaestroCommand (js "takeScreenshot") None None)
                      Samples.tapThenAssertContext)
    by first [exact Hd | apply list_elem_of_In; exact Hd].
  exact (proj1 (proj2 (proj2 (takeScreenshot_name_rule
                                (mkMaestroCommand (js "takeScreenshot") None None)
                                Samples.tapThenAssertContext eq_refl) d Hd'))).
Defined.

(** ** The command rules together *)

Lemma known_commands_spec (n : jsstring) :
  n ∈ KNOWN_COMMANDS ↔
  n ∈ [ js "tapOn"; js "longPressOn"; js "assertVisible"; js "assertNotVisible";
        js "assertTrue"; js "assertFalse"; js "assertThat"; js "launchApp";
        js "inputText"; js "clearInput"; js "eraseText"; js "scroll"; js "swipe";
        js "scrollUntilVisible"; js "scrollToIndex"; js "scrollUntil";
        js "pressKey"; js "hideKeyboard"; js "waitForVisible";
        js "waitForNotVisible"; js "waitForAnimationToEnd"; js "runScript";
        js "runFlow"; js "runCommand"; js "takeScreenshot"; js "openLink";
        js "back"; js "stopApp"; js "copyTextFrom"; js "pasteText";
        js "extendState"; js "evalScript"; js "conditional"; js "repeat" ].
Proof. unfold KNOWN_COMMANDS. now rewrite elem_of_list_to_set. Qed.

(** X14.  A command with an unknown name draws exactly one diagnostic from
    the command rules, the unknown-command error; a command with a known
    name other than [tapOn], [inputText], [conditional], [runFlow] and
    [takeScreenshot] draws none, whatever its value. *)
Theorem command_rules_by_name
    (path_dirname : jsstring → jsstring) (path_isAbsolute : jsstring → bool)
    (path_resolve : jsstring → jsstring → jsstring) (existsSync : jsstring → bool)
    (cmd : MaestroCommand) (context : RuleContext) :
  let rules :=
    commandRules path_dirname path_isAbsolute path_resolve existsSync context cmd in
  (name cmd ∉ KNOWN_COMMANDS →
   rules = validateUnknownCommandName cmd context ∧ length rules = 1%nat
   ∧ Forall (λ d, level d = Error) rules)
  ∧ (name cmd ∈ KNOWN_COMMANDS →
     name cmd ∉ [js "tapOn"; js "inputText"; js "conditional"; js "runFlow";
                 js "takeScreenshot"] →
     rules = []).
Proof.
  intros rules. subst rules.
  unfold commandRules, validateTapOnSelector, validateInputTextValue,
    validateConditionalHasCommands, validateRunFlowFileExists,
    validateTakeScreenshotHasName.
  split.
  - intros Hunknown.
    assert (Hne : ∀ n, n ∈ KNOWN_COMMANDS → name cmd ≠ n)
      by (intros n Hn Heq; rewrite Heq in Hunknown; auto).
    repeat (rewrite bool_decide_false
              by (apply Hne; apply (bool_decide_unpack _); vm_compute; exact I);
            cbn [negb app]). rewrite app_nil_r.
    split; [reflexivity|]. unfold validateUnknownCommandName.
    rewrite bool_decide_false by exact Hunknown.
    split; [reflexivity | repeat constructor].
  - intros Hknown Hother.
    assert (Hne : ∀ n, n ∈ [js "tapOn"; js "inputText"; js "conditional";
                            js "runFlow"; js "takeScreenshot"] → name cmd ≠ n)
      by (intros n Hn Heq; rewrite Heq in Hother; auto).
    repeat (rewrite bool_decide_false
              by (apply Hne; apply (bool_decide_unpack _); vm_compute; exact I);
            cbn [negb app]). unfold validateUnknownCommandName.
    now rewrite bool_decide_true by exact Hknown.
Qed.

(** X15.  The [runFlow] rule reports nothing for a document that is not a
    file, for an empty path and for a target that exists; for a file
    document and a non-empty extracted path without [${] whose target does
    not exist it reports exactly one error, on the value, quoting the path
    as written.  The target probed is the path itself when it is absolute,
    and otherwise the path resolved against the directory of the
    document. *)
Theorem runFlow_rule_reports
    (path_dirname : jsstring → jsstring) (path_isAbsolute : jsstring → bool)
    (path_resolve : jsstring → jsstring → jsstring) (existsSync : jsstring → bool)
    (cmd : MaestroCommand) (context : RuleContext) (v : Node) (p : jsstring) :
  name cmd = js "runFlow" →
  valueNode cmd = Some v →
  extractRunFlowTargetPath v = Some p →
  let rule :=
    validateRunFlowFileExists path_dirname path_isAbsolute path_resolve
      existsSync cmd context in
  let target :=
    if path_isAbsolute p then p
    else path_resolve (path_dirname (fsPath (uri context))) p in
  (scheme (uri context) ≠ js "file" → rule = [])
  ∧ (p = [] → rule = [])
  ∧ (existsSync target = true → rule = [])
  ∧ (scheme (uri context) = js "file" → p ≠ [] →
     (∀ a b, p ≠ a ++ js "${" ++ b) → existsSync target = false →
     ∃ d, rule = [d] ∧ level d = Error ∧ command d = Some (js "runFlow")
          ∧ range d = rangeFromNode (Some v) context
          ∧ ∃ a b, message d = a ++ dq ++ p ++ dq ++ b).
Proof.
  intros Hname Hv Hp rule target. subst rule target.
  unfold validateRunFlowFileExists, resolveRunFlowTarget.
  rewrite Hname, bool_decide_true by reflexivity. cbn [negb]. rewrite Hv, Hp.
  split; [|split; [|split]].
  - intros Hs. now rewrite bool_decide_false by exact Hs.
  - intros ->. now destruct (negb _).
  - intros Hex. rewrite Hex. cbn [negb].
    destruct (negb _); [reflexivity|]. destruct p; [reflexivity|].
    now destruct (includes _ _).
  - intros Hs Hne Hdyn Hex. rewrite bool_decide_true by exact Hs. cbn [negb].
    destruct p as [|c p']; [congruence|].
    destruct (includes (c :: p') (js "${")) eqn:Hinc.
    { apply includes_spec in Hinc as (a & b & Hab). now destruct (Hdyn a b). }
    rewrite Hex. cbn [negb]. eexists. split; [reflexivity|].
    repeat split.
    unfold createResult. cbn [message].
    eexists (messagePrefix _ _ ++ js "runFlow references "), _.
    rewrite <- !app_assoc. reflexivity.
Qed.

Lemma runFlow_rule_reports_witness :
  name MoreSamples.runMissingFlow = js "runFlow"
  ∧ valueNode MoreSamples.runMissingFlow
    = Some (Scalar (VString (js "login.yaml")) (Some (11, 21)))
  ∧ length (validateRunFlowFileExists Samples.dirname Samples.isAbsolute
              Samples.resolve Samples.noFiles MoreSamples.runMissingFlow
              Samples.tapThenAssertContext) = 1%nat.
Proof.
  split; [reflexivity|]. split; [reflexivity|].
  destruct (runFlow_rule_reports Samples.dirname Samples.isAbsolute
              Samples.resolve Samples.noFiles MoreSamples.runMissingFlow
              Samples.tapThenAssertContext
              (Scalar (VString (js "login.yaml")) (Some (11, 21)))
              (js "login.yaml") eq_refl eq_refl eq_refl)
    as (_ & _ & _ & Hreport).
  destruct Hreport as (d & -> & _); try reflexivity.
  - vm_compute. discriminate.
  - intros a b Hab.
    assert (Hinc : includes (js "login.yaml") (js "${") = true)
      by (apply includes_spec; eauto).
    vm_compute in Hinc. discriminate Hinc.
Defined.

(** ** The sequence rules *)

Lemma tapOn_is_navigation : js "tapOn" ∈ NAV_OR_WAIT_COMMANDS.
Proof. apply (bool_decide_unpack _). vm_compute. exact I. Qed.

Lemma assertVisible_is_not_navigation : js "assertVisible" ∉ NAV_OR_WAIT_COMMANDS.
Proof. apply (bool_decide_unpack _). vm_compute. exact I. Qed.

Lemma priorNavigationStep_after_navigation sequence context handled (i j : nat) prev :
  (j < i)%nat → sequence !! j = Some prev → name prev ∈ NAV_OR_WAIT_COMMANDS →
  priorNavigationStep sequence context handled i = [].
Proof.
  intros Hj Hprev Hnav. unfold priorNavigationStep.
  assert (Hscan : hasNavOrWaitBefore sequence i = true)
    by (apply hasNavOrWaitBefore_spec; eauto).
  rewrite Hscan. now repeat case_match.
Qed.

Lemma priorNavigationStep_handled_irrelevant sequence context (i : nat) :
  priorNavigationStep sequence context
    (validateAssertVisibleImmediatelyAfterTapOn sequence context ∅).2 i
  = priorNavigationStep sequence context ∅ i.
Proof.
  destruct (decide (i ∈ (validateAssertVisibleImmediatelyAfterTapOn
                           sequence context ∅).2)) as [Hin|Hout].
  - apply handledAsserts_spec in Hin as (i' & -> & cur & next & Hc & Hn & Hcn & Hnn).
    rewrite !(priorNavigationStep_after_navigation sequence context _ (i' + 1) i' cur);
      auto; try lia; rewrite Hcn; apply tapOn_is_navigation.
  - unfold priorNavigationStep.
    rewrite (bool_decide_false _ Hout).
    now rewrite (bool_decide_false (i ∈ (∅ : gset nat))) by apply not_elem_of_empty.
Qed.

Lemma handled_marks_do_not_change_the_report_aux
    (sequence : list MaestroCommand) (context : RuleContext) :
  let adjacent := validateAssertVisibleImmediatelyAfterTapOn sequence context ∅ in
  validateAssertVisibleHasPriorNavigationOrWait sequence context adjacent.2
  = validateAssertVisibleHasPriorNavigationOrWait sequence context ∅
  ∧ sequenceRules context sequence
    = adjacent.1
      ++ validateAssertVisibleHasPriorNavigationOrWait sequence context ∅
      ++ validateDuplicateSequentialActions sequence context.
Proof.
  intros adjacent.
  assert (H : validateAssertVisibleHasPriorNavigationOrWait sequence context adjacent.2
              = validateAssertVisibleHasPriorNavigationOrWait sequence context ∅).
  { unfold validateAssertVisibleHasPriorNavigationOrWait.
    apply flat_map_ext. intros i. apply priorNavigationStep_handled_irrelevant. }
  split; [exact H|]. rewrite <- H. unfold sequenceRules. fold adjacent.
  now destruct adjacent.
Qed.

(** X16.  The marks left by the adjacency rule never change what the
    prior-navigation rule reports: an [assertVisible] that directly follows
    a [tapOn] has a navigation command before it, so the rule is silent on
    it with or without the mark. *)
Theorem handled_marks_do_not_change_the_report
    (sequence : list MaestroCommand) (context : RuleContext) :
  let adjacent := validateAssertVisibleImmediatelyAfterTapOn sequence context ∅ in
  validateAssertVisibleHasPriorNavigationOrWait sequence context adjacent.2
  = validateAssertVisibleHasPriorNavigationOrWait sequence context ∅
  ∧ sequenceRules context sequence
    = adjacent.1
      ++ validateAssertVisibleHasPriorNavigationOrWait sequence context ∅
      ++ validateDuplicateSequentialActions sequence context.
Proof. apply handled_marks_do_not_change_the_report_aux. Qed.

(** X17.  A sequence whose first command is a navigation or wait command
    never draws the prior-navigation warning, whatever follows and whatever
    is marked handled. *)
Theorem navigation_first_silences_prior_rule
    (sequence : list MaestroCommand) (context : RuleContext)
    (handledAsserts : HandledAsserts) (first : MaestroCommand) :
  sequence !! 0%nat = Some first →
  name first ∈ NAV_OR_WAIT_COMMANDS →
  validateAssertVisibleHasPriorNavigationOrWait sequence context handledAsserts = [].
Proof.
  intros Hfirst Hnav. unfold validateAssertVisibleHasPriorNavigationOrWait.
  induction (seq 0 (length sequence)) as [|i l IH]; [reflexivity|].
  cbn [flat_map]. rewrite IH, app_nil_r.
  destruct i as [|i].
  - unfold priorNavigationStep. rewrite Hfirst.
    rewrite bool_decide_false; [reflexivity|].
    intros Heq. rewrite Heq in Hnav. now apply assertVisible_is_not_navigation.
  - apply (priorNavigationStep_after_navigation sequence context _ (S i) 0 first);
      auto. lia.
Qed.

Lemma navigation_first_silences_prior_rule_witness :
  Samples.tapThenAssertSequence !! 0%nat
  = Some (mkMaestroCommand (js "tapOn")
            (Some (Scalar (VString (js "tapOn")) (Some (2, 7)))) None)
  ∧ js "tapOn" ∈ NAV_OR_WAIT_COMMANDS
  ∧ validateAssertVisibleHasPriorNavigationOrWait Samples.tapThenAssertSequence
      Samples.tapThenAssertContext ∅ = [].
Proof.
  split; [reflexivity|]. split; [exact tapOn_is_navigation|].
  apply (navigation_first_silences_prior_rule Samples.tapThenAssertSequence
           Samples.tapThenAssertContext ∅ _ eq_refl).
  exact tapOn_is_navigation.
Defined.

(** X18.  An [assertVisible] that opens a sequence is always warned about by
    the prior-navigation rule, first of all its warnings; a sequence made of
    a single [assertVisible] draws that warning and nothing else from the
    sequence rules. *)
Theorem leading_assertVisible_is_warned
    (cmd : MaestroCommand) (rest : list MaestroCommand) (context : RuleContext) :
  name cmd = js "assertVisible" →
  let w := createResult context Warning withoutPriorNavigationMessage
             (nameNode cmd) (Some (js "assertVisible")) in
  (∃ others,
     validateAssertVisibleHasPriorNavigationOrWait (cmd :: rest) context
       (validateAssertVisibleImmediatelyAfterTapOn (cmd :: rest) context ∅).2
     = w :: others)
  ∧ sequenceRules context [cmd] = [w]
  ∧ level w = Warning
  ∧ ∃ a b, message w = a ++ js "without a prior navigation or wait" ++ b.
Proof.
  intros Hname w. split; [|split; [|split]].
  - rewrite (proj1 (handled_marks_do_not_change_the_report_aux (cmd :: rest) context)).
    unfold validateAssertVisibleHasPriorNavigationOrWait.
    cbn [length seq flat_map]. eexists.
    unfold priorNavigationStep at 1. cbn [lookup list_lookup].
    rewrite Hname. rewrite bool_decide_true by reflexivity. cbn [negb].
    rewrite bool_decide_false by apply not_elem_of_empty.
    cbn [hasNavOrWaitBefore negb app]. reflexivity.
  - unfold sequenceRules, validateAssertVisibleImmediatelyAfterTapOn,
      validateAssertVisibleHasPriorNavigationOrWait,
      validateDuplicateSequentialActions.
    cbn [length Nat.sub seq foldl flat_map app].
    unfold priorNavigationStep. cbn [lookup list_lookup].
    rewrite Hname. rewrite bool_decide_true by reflexivity. cbn [negb].
    rewrite bool_decide_false by apply not_elem_of_empty.
    reflexivity.
  - reflexivity.
  - subst w. unfold createResult. cbn [message].
    exists (messagePrefix (Some (js "assertVisible"))
              (vscode.line (vscode.start (rangeFromNode (nameNode cmd) context)) + 1)
            ++ js "assertVisible is used "),
           (js " in this flow. Consider adding `tapOn`, `launchApp`, `scroll`, or `waitForVisible` before this assertion so it checks a meaningful UI state.").
    rewrite <- app_assoc. f_equal.
Qed.

Lemma leading_assertVisible_is_warned_witness :
  name (mkMaestroCommand (js "assertVisible") None None) = js "assertVisible"
  ∧ length (sequenceRules Samples.tapThenAssertContext
              [mkMaestroCommand (js "assertVisible") None None]) = 1%nat.
Proof.
  split; [reflexivity|].
  destruct (leading_assertVisible_is_warned
              (mkMaestroCommand (js "assertVisible") None None) []
              Samples.tapThenAssertContext eq_refl) as (_ & -> & _).
  reflexivity.
Defined.

Lemma flat_map_seq_shift {A} (f : nat → list A) (n : nat) :
  flat_map f (seq 1 n) = flat_map (λ i, f (S i)) (seq 0 n).
Proof.
  rewrite <- seq_shift. induction (seq 0 n) as [|i l IH]; [reflexivity|].
  simpl. now rewrite IH.
Qed.

Lemma adjacentRepeats_cons (a b : jsstring) (l : list jsstring) :
  adjacentRepeats (a :: b :: l)
  = ((if bool_decide (a = b) then 1 else 0) + adjacentRepeats (b :: l))%nat.
Proof. reflexivity. Qed.

Lemma tapOnAssertPairs_cons (a b : jsstring) (l : list jsstring) :
  tapOnAssertPairs (a :: b :: l)
  = ((if bool_decide (a = js "tapOn") && bool_decide (b = js "assertVisible")
      then 1 else 0) + tapOnAssertPairs (b :: l))%nat.
Proof. reflexivity. Qed.

Lemma duplicate_length (sequence : list MaestroCommand) (context : RuleContext) :
  length (validateDuplicateSequentialActions sequence context)
  = adjacentRepeats (List.map name sequence).
Proof.
  unfold validateDuplicateSequentialActions.
  induction sequence as [|a [|b rest] IH]; [reflexivity|reflexivity|].
  replace (length (a :: b :: rest) - 1)%nat with (S (length (b :: rest) - 1)%nat)
    by (cbn [length]; lia).
  cbn [seq flat_map]. rewrite length_app, flat_map_seq_shift.
  cbn [List.map]. cbn [List.map] in IH. rewrite adjacentRepeats_cons, <- IH.
  f_equal.
  unfold duplicateStep. cbn [lookup list_lookup Nat.add].
  now destruct (bool_decide (name a = name b)).
Qed.

(** X19.  The duplicate rule gives one warning for each place where a
    command is followed by a command of the same name, and looks at names
    only: a run of [n] commands of one name draws [n - 1] warnings
    whatever their arguments, and a sequence without such a place draws
    none. *)
Theorem duplicate_rule_counts_repeated_names
    (sequence : list MaestroCommand) (context : RuleContext) :
  length (validateDuplicateSequentialActions sequence context)
  = adjacentRepeats (List.map name sequence)
  ∧ Forall (λ d, level d = Warning)
      (validateDuplicateSequentialActions sequence context)
  ∧ (∀ other, List.map name other = List.map name sequence →
       length (validateDuplicateSequentialActions other context)
       = length (validateDuplicateSequentialActions sequence context))
  ∧ (∀ n c, List.map name sequence = replicate n c →
       length (validateDuplicateSequentialActions sequence context) = (n - 1)%nat).
Proof.
  split; [apply duplicate_length|]. split; [|split].
  - unfold validateDuplicateSequentialActions.
    apply Forall_flat_map, Forall_forall. intros i _.
    unfold duplicateStep. repeat case_match; repeat constructor.
  - intros other Hnames. now rewrite !duplicate_length, Hnames.
  - intros n c Hrep. rewrite duplicate_length, Hrep. clear Hrep.
    induction n as [|[|n] IH]; [reflexivity|reflexivity|].
    cbn [replicate] in *. rewrite adjacentRepeats_cons.
    rewrite bool_decide_true by reflexivity. rewrite IH. lia.
Qed.

Lemma adjacency_length (sequence : list MaestroCommand) (context : RuleContext) :
  length (validateAssertVisibleImmediatelyAfterTapOn sequence context ∅).1
  = tapOnAssertPairs (List.map name sequence).
Proof.
  unfold validateAssertVisibleImmediatelyAfterTapOn.
  rewrite immediatelyAfterTapOn_foldl_results. cbn [fst app].
  induction sequence as [|a [|b rest] IH]; [reflexivity|reflexivity|].
  replace (length (a :: b :: rest) - 1)%nat with (S (length (b :: rest) - 1)%nat)
    by (cbn [length]; lia).
  cbn [seq flat_map]. rewrite length_app, flat_map_seq_shift.
  cbn [List.map]. cbn [List.map] in IH. rewrite tapOnAssertPairs_cons, <- IH.
  f_equal.
  - unfold immediatelyAfterTapOnAt, immediatelyAfterTapOnStep.
    cbn [lookup list_lookup Nat.add].
    now destruct (bool_decide (name a = js "tapOn")
                  && bool_decide (name b = js "assertVisible")).
  - f_equal. apply flat_map_ext. intros i.
    unfold immediatelyAfterTapOnAt, immediatelyAfterTapOnStep.
    cbn [lookup list_lookup Nat.add].
    destruct ((b :: rest) !! i) as [current|]; [|reflexivity].
    destruct ((b :: rest) !! (i + 1)%nat) as [next|]; [|reflexivity].
    now destruct (bool_decide (name current = js "tapOn")
                  && bool_decide (name next = js "assertVisible")).
Qed.


(** X20.  The adjacency rule gives one warning for each place where a
    [tapOn] is directly followed by an [assertVisible]; each is a warning
    on an [assertVisible] command; and the count depends on the names of
    the commands only. *)
Theorem adjacency_rule_counts_pairs
    (sequence : list MaestroCommand) (context : RuleContext) :
  let adjacent := validateAssertVisibleImmediatelyAfterTapOn sequence context ∅ in
  length adjacent.1 = tapOnAssertPairs (List.map name sequence)
  ∧ Forall (λ d, level d = Warning ∧ command d = Some (js "assertVisible"))
      adjacent.1
  ∧ (∀ other, List.map name other = List.map name sequence →
       length (validateAssertVisibleImmediatelyAfterTapOn other context ∅).1
       = length adjacent.1).
Proof.
  intros adjacent. split; [apply adjacency_length|]. split.
  - subst adjacent. unfold validateAssertVisibleImmediatelyAfterTapOn.
    rewrite immediatelyAfterTapOn_foldl_results. cbn [fst app].
    apply Forall_flat_map, Forall_forall. intros i _.
    unfold immediatelyAfterTapOnAt, immediatelyAfterTapOnStep.
    destruct (sequence !! i) as [current|]; [|constructor].
    destruct (sequence !! (i + 1)%nat) as [next|]; [|constructor].
    destruct (bool_decide_reflect (name current = js "tapOn")) as [Hc|Hc];
      [|constructor].
    destruct (bool_decide_reflect (name next = js "assertVisible")) as [Hn|Hn];
      [|constructor].
    cbn [andb fst app]. constructor; [|constructor].
    cbn [level command createResult]. now rewrite Hn.
  - intros other Hnames. subst adjacent. now rewrite !adjacency_length, Hnames.
Qed.

(** ** The validator as a whole *)

Lemma flat_map_nil_iff {A B} (f : A → list B) (l : list A) :
  flat_map f l = [] ↔ Forall (λ x, f x = []) l.
Proof.
  induction l as [|x l IH]; simpl.
  - split; [constructor | reflexivity].
  - split.
    + intros H. apply app_eq_nil in H as [Hx Hl]. constructor; [exact Hx | now apply IH].
    + intros H. inversion H as [|? ? Hx Hl]; subst. rewrite Hx. now apply IH.
Qed.

Lemma syntaxErrors_map (context : RuleContext) (documents : list Document) :
  flat_map (λ doc, List.map (parseErrorResult context) (errors doc)) documents
  = List.map (parseErrorResult context) (flat_map errors documents).
Proof.
  induction documents as [|doc docs IH]; simpl; [reflexivity|].
  now rewrite IH, map_app.
Qed.

Lemma withoutErrors_sequences (documents : list Document) :
  flat_map documentSequences (List.map withoutErrors documents)
  = flat_map documentSequences documents.
Proof.
  induction documents as [|doc docs IH]; simpl; [reflexivity|]. now rewrite IH.
Qed.

Lemma withoutErrors_errors (context : RuleContext) (documents : list Document) :
  flat_map (λ doc, List.map (parseErrorResult context) (errors doc))
           (List.map withoutErrors documents) = [].
Proof. induction documents as [|doc docs IH]; simpl; [reflexivity | exact IH]. Qed.

Section WholeValidator.

Variable parseAllDocuments : jsstring -> list Document.
Variable path_dirname : jsstring -> jsstring.
Variable path_isAbsolute : jsstring -> bool.
Variable path_resolve : jsstring -> jsstring -> jsstring.
Variable existsSync : jsstring -> bool.

Local Abbreviation rulesOf :=
  (commandRules path_dirname path_isAbsolute path_resolve existsSync).

(** X21.  Each of the five level-1 command rules reports errors only and
    the [takeScreenshot] rule warnings only.  So the diagnostics the command
    rules give a command are all errors when the command is not named
    [takeScreenshot], and are exactly those of the [takeScreenshot] rule,
    all warnings, when it is.  The sequence rules report warnings only, and
    a YAML parse error is reported as an error. *)
Theorem severity_by_rule (cmd : MaestroCommand) (sequence : list MaestroCommand)
    (context : RuleContext) (err : YAMLParseError) :
  Forall (λ d, level d = Error) (validateTapOnSelector cmd context)
  ∧ Forall (λ d, level d = Error) (validateInputTextValue cmd context)
  ∧ Forall (λ d, level d = Error) (validateConditionalHasCommands cmd context)
  ∧ Forall (λ d, level d = Error)
      (validateRunFlowFileExists path_dirname path_isAbsolute path_resolve
         existsSync cmd context)
  ∧ Forall (λ d, level d = Error) (validateUnknownCommandName cmd context)
  ∧ Forall (λ d, level d = Warning) (validateTakeScreenshotHasName cmd context)
  ∧ (name cmd ≠ js "takeScreenshot" →
     Forall (λ d, level d = Error) (rulesOf context cmd))
  ∧ (name cmd = js "takeScreenshot" →
     rulesOf context cmd = validateTakeScreenshotHasName cmd context
     ∧ Forall (λ d, level d = Warning) (rulesOf context cmd))
  ∧ Forall (λ d, level d = Warning) (sequenceRules context sequence)
  ∧ level (parseErrorResult context err) = Error.
Proof.
  assert (Htap : Forall (λ d, level d = Error) (validateTapOnSelector cmd context)).
  { unfold validateTapOnSelector. repeat case_match;
      repeat (constructor; [reflexivity|]); constructor. }
  assert (Hinput : Forall (λ d, level d = Error) (validateInputTextValue cmd context)).
  { unfold validateInputTextValue. repeat case_match;
      repeat (constructor; [reflexivity|]); constructor. }
  assert (Hcond : Forall (λ d, level d = Error)
                    (validateConditionalHasCommands cmd context)).
  { unfold validateConditionalHasCommands. repeat case_match;
      repeat (constructor; [reflexivity|]); constructor. }
  assert (Hrun : Forall (λ d, level d = Error)
                   (validateRunFlowFileExists path_dirname path_isAbsolute
                      path_resolve existsSync cmd context)).
  { unfold validateRunFlowFileExists. repeat case_match;
      repeat (constructor; [reflexivity|]); constructor. }
  assert (Hunknown : Forall (λ d, level d = Error)
                       (validateUnknownCommandName cmd context)).
  { unfold validateUnknownCommandName. repeat case_match;
      repeat (constructor; [reflexivity|]); constructor. }
  assert (Htake : Forall (λ d, level d = Warning)
                    (validateTakeScreenshotHasName cmd context)).
  { unfold validateTakeScreenshotHasName. repeat case_match;
      repeat (constructor; [reflexivity|]); constructor. }
  do 6 (split; [assumption|]).
  split; [|split; [|split; [|reflexivity]]].
  - intros Hname. unfold commandRules. repeat (apply Forall_app; split); auto.
    unfold validateTakeScreenshotHasName.
    rewrite bool_decide_false by exact Hname. constructor.
  - intros Hname.
    assert (Hrules : rulesOf context cmd = validateTakeScreenshotHasName cmd context).
    { unfold commandRules, validateTapOnSelector, validateInputTextValue,
        validateConditionalHasCommands, validateRunFlowFileExists,
        validateUnknownCommandName.
      rewrite Hname. reflexivity. }
    split; [exact Hrules|]. rewrite Hrules. exact Htake.
  - unfold sequenceRules.
    pose proof (immediatelyAfterTapOn_foldl_results sequence context
                  (seq 0 (length sequence - 1)) ([], ∅)) as Hadj.
    fold (validateAssertVisibleImmediatelyAfterTapOn sequence context ∅) in Hadj.
    destruct (validateAssertVisibleImmediatelyAfterTapOn sequence context ∅)
      as [adjacent handled].
    cbn [fst app] in Hadj. subst adjacent.
    repeat (apply Forall_app; split).
    + apply Forall_flat_map, Forall_forall. intros i _.
      unfold immediatelyAfterTapOnAt, immediatelyAfterTapOnStep.
      repeat case_match; repeat constructor.
    + unfold validateAssertVisibleHasPriorNavigationOrWait.
      apply Forall_flat_map, Forall_forall. intros i _.
      unfold priorNavigationStep. repeat case_match; repeat constructor.
    + unfold validateDuplicateSequentialActions.
      apply Forall_flat_map, Forall_forall. intros i _.
      unfold duplicateStep. repeat case_match; repeat constructor.
Qed.

Local Abbreviation validate :=
  (validateMaestroFlow parseAllDocuments path_dirname path_isAbsolute
     path_resolve existsSync).

(** X22.  Parse errors never stop the rules: on a non-blank text the result
    is the parse-error diagnostics, one per error in document order,
    followed by exactly what the validator reports on the same documents
    without their parse errors. *)
Theorem syntax_errors_come_first (text : jsstring) (uri : Uri) :
  trim text ≠ [] →
  let context := mkRuleContext text uri (computeLineOffsets text) in
  validate text uri
  = List.map (parseErrorResult context) (flat_map errors (parseAllDocuments text))
    ++ validateMaestroFlow (λ t, List.map withoutErrors (parseAllDocuments t))
         path_dirname path_isAbsolute path_resolve existsSync text uri.
Proof.
  intros Hnonblank context. unfold validateMaestroFlow. fold context.
  destruct (trim text) as [|c t] eqn:E; [congruence|]. cbn [jsLength length].
  replace (0 <? Z.of_nat (S (length t))) with true by (symmetry; apply Z.ltb_lt; lia).
  cbn [negb].
  rewrite withoutErrors_errors, withoutErrors_sequences, syntaxErrors_map.
  cbn [app]. now destruct (_ =? 0).
Qed.

(** X23.  A document without parse errors in which no sequence is
    discovered, such as a configuration document, does not change the
    result, wherever it stands among the documents of the text. *)
Theorem document_without_commands_is_ignored
    (text : jsstring) (uri : Uri) (doc : Document) (before after : list Document) :
  parseAllDocuments text = before ++ doc :: after →
  errors doc = [] →
  documentSequences doc = [] →
  validate text uri
  = validateMaestroFlow (λ _, before ++ after) path_dirname path_isAbsolute
      path_resolve existsSync text uri.
Proof.
  intros Hparse Herr Hseq. unfold validateMaestroFlow. rewrite Hparse.
  rewrite !flat_map_app. cbn [flat_map]. rewrite Herr, Hseq. reflexivity.
Qed.

(** X24.  The validator returns no diagnostic exactly when the text is not
    blank, no document has a parse error, at least one command is
    discovered, and every command rule and every sequence rule is silent. *)
Theorem empty_report_characterised (text : jsstring) (uri : Uri) :
  let context := mkRuleContext text uri (computeLineOffsets text) in
  let commandSequences := flat_map documentSequences (parseAllDocuments text) in
  validate text uri = [] ↔
    trim text ≠ []
    ∧ Forall (λ doc, errors doc = []) (parseAllDocuments text)
    ∧ concat commandSequences ≠ []
    ∧ Forall (λ cmd, rulesOf context cmd = []) (concat commandSequences)
    ∧ Forall (λ s, sequenceRules context s = []) commandSequences.
Proof.
  intros context commandSequences. unfold validateMaestroFlow.
  fold context. fold commandSequences.
  assert (Herrs : ∀ docs : list Document,
            flat_map (λ doc, List.map (parseErrorResult context) (errors doc)) docs = []
            ↔ Forall (λ doc, errors doc = []) docs).
  { intros docs. rewrite flat_map_nil_iff.
    split; intros HF; (eapply Forall_impl; [exact HF|]); intros doc H; cbv beta in *.
    - now destruct (errors doc).
    - now rewrite H. }
  destruct (trim text) as [|c t] eqn:E.
  - cbn. split; [discriminate | now intros [H _]].
  - cbn [jsLength length].
    replace (0 <? Z.of_nat (S (length t))) with true
      by (symmetry; apply Z.ltb_lt; lia).
    cbn [negb].
    destruct (concat commandSequences) as [|cmd cmds] eqn:Ec.
    + cbn. split; [|now intros (_ & _ & H & _)].
      intros H. apply app_eq_nil in H as [_ H]. discriminate.
    + replace (Z.of_nat (length (cmd :: cmds)) =? 0) with false
        by (symmetry; apply Z.eqb_neq; cbn [length]; lia).
      split.
      * intros H. apply app_eq_nil in H as [H1 H]. apply app_eq_nil in H as [H2 H3].
        split; [discriminate|]. split; [now apply Herrs|]. split; [discriminate|].
        split; now apply flat_map_nil_iff.
      * intros (_ & H1 & _ & H2 & H3).
        apply Herrs in H1. apply flat_map_nil_iff in H2, H3.
        now rewrite H1, H2, H3.
Qed.

End WholeValidator.

Lemma syntax_errors_come_first_witness :
  trim Samples.unterminatedText ≠ []
  ∧ length (Samples.validateWith Samples.unterminated Samples.unterminatedText
              Samples.flowUri)
    = S (length (Samples.validateWith (withoutErrors Samples.unterminated)
                   Samples.unterminatedText Samples.flowUri)).
Proof.
  assert (H : trim Samples.unterminatedText ≠ []) by (vm_compute; discriminate).
  split; [exact H|]. unfold Samples.validateWith.
  rewrite (syntax_errors_come_first (λ _, [Samples.unterminated]) Samples.dirname
             Samples.isAbsolute Samples.resolve Samples.noFiles
             Samples.unterminatedText Samples.flowUri H).
  reflexivity.
Defined.

Lemma document_without_commands_is_ignored_witness :
  [Samples.configOnly; Samples.tapThenAssert]
  = [] ++ Samples.configOnly :: [Samples.tapThenAssert]
  ∧ errors Samples.configOnly = []
  ∧ documentSequences Samples.configOnly = []
  ∧ validateMaestroFlow (λ _, [Samples.configOnly; Samples.tapThenAssert])
      Samples.dirname Samples.isAbsolute Samples.resolve Samples.noFiles
      Samples.tapThenAssertText Samples.flowUri
    = Samples.validateWith Samples.tapThenAssert Samples.tapThenAssertText
        Samples.flowUri.
Proof.
  split; [reflexivity|]. split; [reflexivity|]. split; [reflexivity|].
  apply (document_without_commands_is_ignored
           (λ _, [Samples.configOnly; Samples.tapThenAssert]) Samples.dirname
           Samples.isAbsolute Samples.resolve Samples.noFiles
           Samples.tapThenAssertText Samples.flowUri Samples.configOnly []
           [Samples.tapThenAssert]); reflexivity.
Defined.

(** ** Message prefixes *)

Lemma createResult_prefixed_named context lvl msg node (c : jsstring) :
  c ≠ [] → wellPrefixed (createResult context lvl msg node (Some c)).
Proof.
  intros Hc. unfold wellPrefixed, createResult. cbn [command message line].
  split; [exact Hc|]. exists msg. destruct c as [|x xs]; [congruence|].
  cbn [messagePrefix]. now rewrite <- !app_assoc.
Qed.

Lemma createResult_prefixed_unnamed context lvl msg node :
  wellPrefixed (createResult context lvl msg node None).
Proof.
  unfold wellPrefixed, createResult. cbn [command message line messagePrefix].
  exists msg. now rewrite <- !app_assoc.
Qed.

Lemma parseErrorResult_prefixed context err :
  wellPrefixed (parseErrorResult context err).
Proof.
  unfold wellPrefixed, parseErrorResult. cbn [command message line].
  exists (js "YAML parse error " ++ [8211%N] ++ js " " ++ err_message err).
  reflexivity.
Qed.

Ltac rule_prefixed :=
  repeat case_match;
  repeat (constructor; [now apply createResult_prefixed_named|]);
  constructor.

Lemma commandRules_prefixed
    (path_dirname : jsstring → jsstring) (path_isAbsolute : jsstring → bool)
    (path_resolve : jsstring → jsstring → jsstring) (existsSync : jsstring → bool)
    (context : RuleContext) (cmd : MaestroCommand) :
  name cmd ≠ [] →
  Forall wellPrefixed
    (commandRules path_dirname path_isAbsolute path_resolve existsSync context cmd).
Proof.
  intros Hname. unfold commandRules. repeat (apply Forall_app; split).
  - unfold validateTapOnSelector. rule_prefixed.
  - unfold validateInputTextValue. rule_prefixed.
  - unfold validateConditionalHasCommands. rule_prefixed.
  - unfold validateRunFlowFileExists. rule_prefixed.
  - unfold validateUnknownCommandName. rule_prefixed.
  - unfold validateTakeScreenshotHasName. rule_prefixed.
Qed.

Lemma sequenceRules_prefixed (context : RuleContext) (sequence : list MaestroCommand) :
  Forall (λ cmd, name cmd ≠ []) sequence →
  Forall wellPrefixed (sequenceRules context sequence).
Proof.
  intros Hnames.
  assert (Hat : ∀ i cmd, sequence !! i = Some cmd → name cmd ≠ []).
  { intros i cmd Hi. rewrite Forall_forall in Hnames. apply Hnames.
    first [eapply list_elem_of_lookup_2; exact Hi
          | apply list_elem_of_In; eapply list_elem_of_lookup_2; exact Hi]. }
  unfold sequenceRules.
  pose proof (immediatelyAfterTapOn_foldl_results sequence context
                (seq 0 (length sequence - 1)) ([], ∅)) as Hadj.
  fold (validateAssertVisibleImmediatelyAfterTapOn sequence context ∅) in Hadj.
  destruct (validateAssertVisibleImmediatelyAfterTapOn sequence context ∅)
    as [adjacent handled].
  cbn [fst app] in Hadj. subst adjacent.
  repeat (apply Forall_app; split).
  - apply Forall_flat_map, Forall_forall. intros i _.
    unfold immediatelyAfterTapOnAt, immediatelyAfterTapOnStep.
    destruct (sequence !! i) as [current|]; [|constructor].
    destruct (sequence !! (i + 1)%nat) as [next|] eqn:En; [|constructor].
    destruct (_ && _); [|constructor]. cbn [fst app].
    constructor; [|constructor]. apply createResult_prefixed_named. eauto.
  - unfold validateAssertVisibleHasPriorNavigationOrWait.
    apply Forall_flat_map, Forall_forall. intros i _.
    unfold priorNavigationStep.
    destruct (sequence !! i) as [cmd|] eqn:Ei; [|constructor].
    repeat case_match; try constructor; [|constructor].
    apply createResult_prefixed_named. eauto.
  - unfold validateDuplicateSequentialActions.
    apply Forall_flat_map, Forall_forall. intros i _.
    unfold duplicateStep.
    destruct (sequence !! i) as [current|]; [|constructor].
    destruct (sequence !! (i + 1)%nat) as [next|] eqn:En; [|constructor].
    destruct (bool_decide _); [|constructor].
    constructor; [|constructor]. apply createResult_prefixed_named. eauto.
Qed.

Lemma discovered_names_nonempty (documents : list Document) :
  Forall (Forall (λ cmd, name cmd ≠ [])) (flat_map documentSequences documents).
Proof.
  apply Forall_flat_map, Forall_forall. intros doc _.
  apply Forall_forall. intros s Hs.
  assert (Hs' : s ∈ documentSequences doc)
    by first [exact Hs | apply list_elem_of_In; exact Hs].
  apply documentSequences_nonempty in Hs' as (_ & items & ->).
  apply Forall_forall. intros cmd Hcmd.
  assert (Hcmd' : cmd ∈ omap commandOfItem items)
    by first [exact Hcmd | apply list_elem_of_In; exact Hcmd].
  apply list_elem_of_omap in Hcmd' as (item & _ & Hc).
  apply commandOfItem_spec in Hc as [Hname _]. now apply trim_nonempty.
Qed.

(** X25.  The message of every diagnostic the validator returns opens with
    the name of its command, [ at line ], its line number and a colon, or,
    for a diagnostic without command, with [Line ], its line number and a
    colon; a diagnostic that carries a command name carries a non-empty
    one. *)
Theorem diagnostics_are_prefixed
    (parseAllDocuments : jsstring → list Document)
    (path_dirname : jsstring → jsstring) (path_isAbsolute : jsstring → bool)
    (path_resolve : jsstring → jsstring → jsstring) (existsSync : jsstring → bool)
    (text : jsstring) (uri : Uri) (d : ValidationResult) :
  d ∈ validateMaestroFlow parseAllDocuments path_dirname path_isAbsolute
        path_resolve existsSync text uri →
  match command d with
  | Some c =>
      c ≠ [] ∧ ∃ rest, message d
                       = c ++ js " at line " ++ numberToString (line d)
                         ++ js ": " ++ rest
  | None =>
      ∃ rest, message d = js "Line " ++ numberToString (line d) ++ js ": " ++ rest
  end.
Proof.
  change (d ∈ validateMaestroFlow parseAllDocuments path_dirname path_isAbsolute
                path_resolve existsSync text uri → wellPrefixed d).
  revert d. apply Forall_forall. unfold validateMaestroFlow.
  set (context := mkRuleContext text uri (computeLineOffsets text)).
  pose proof (discovered_names_nonempty (parseAllDocuments text)) as Hnames.
  assert (Hsyntax : Forall wellPrefixed
            (flat_map (λ doc, List.map (parseErrorResult context) (errors doc))
                      (parseAllDocuments text))).
  { apply Forall_flat_map, Forall_forall. intros doc _.
    apply Forall_map, Forall_forall. intros err _. apply parseErrorResult_prefixed. }
  repeat case_match; repeat (apply Forall_app; split); auto.
  - constructor; [apply createResult_prefixed_unnamed | constructor].
  - constructor; [apply createResult_prefixed_unnamed | constructor].
  - apply Forall_flat_map. apply Forall_concat in Hnames.
    eapply Forall_impl; [exact Hnames|]. intros cmd Hcmd.
    now apply commandRules_prefixed.
  - apply Forall_flat_map. eapply Forall_impl; [exact Hnames|].
    intros s Hs. now apply sequenceRules_prefixed.
Qed.

Lemma diagnostics_are_prefixed_witness :
  Samples.adjacencyWarning
    ∈ (Samples.validateWith Samples.tapThenAssert Samples.tapThenAssertText
         Samples.flowUri)
  ∧ ∃ rest, message Samples.adjacencyWarning
            = js "assertVisible at line 2: " ++ rest.
Proof.
  assert (H : Samples.adjacencyWarning
              ∈ (Samples.validateWith Samples.tapThenAssert
                   Samples.tapThenAssertText Samples.flowUri))
    by (vm_compute; right; left).
  split; [exact H|].
  pose proof (diagnostics_are_prefixed _ _ _ _ _ _ _ _ H) as Hp.
  cbn [command Samples.adjacencyWarning createResult] in Hp.
  destruct Hp as (_ & rest & Hrest). exists rest. rewrite Hrest. reflexivity.
Defined.

(** ** Map lookups *)

(** X26.  Looking a key up in a map yields the value of the first pair whose
    key is that string, later pairs with the same key being ignored; it
    yields nothing when no pair has the key; and a value it yields is the
    value of some pair of the map that has the key. *)
Theorem lookup_takes_first_pair (items : list Pair) (key : jsstring) :
  (∀ pre k v post,
     items = pre ++ (k, v) :: post →
     keyName k = Some key →
     Forall (λ p : Pair, keyName p.1 ≠ Some key) pre →
     findMapValueByKey items key = v)
  ∧ (Forall (λ p : Pair, keyName p.1 ≠ Some key) items →
     findMapValueByKey items key = None)
  ∧ (∀ n, findMapValueByKey items key = Some n →
          ∃ k, (k, Some n) ∈ items ∧ keyName k = Some key).
Proof.
  assert (Hskip : ∀ pre rest,
            Forall (λ p : Pair, keyName p.1 ≠ Some key) pre →
            findMapValueByKey (pre ++ rest) key = findMapValueByKey rest key).
  { intros pre rest Hpre. induction Hpre as [|[k v] pre Hk _ IH]; [reflexivity|].
    cbn [app findMapValueByKey]. cbn [fst] in Hk.
    destruct (keyName k) as [s|]; [|exact IH].
    rewrite bool_decide_false by congruence. exact IH. }
  split; [|split].
  - intros pre k v post -> Hk Hpre. rewrite (Hskip pre _ Hpre).
    cbn [findMapValueByKey]. rewrite Hk. now rewrite bool_decide_true.
  - intros Hnone. rewrite <- (app_nil_r items). now rewrite (Hskip items [] Hnone).
  - intros n. induction items as [|[k v] rest IH]; [discriminate|].
    cbn [findMapValueByKey]. destruct (keyName k) as [s|] eqn:Ek.
    + destruct (bool_decide_reflect (s = key)) as [->|Hne].
      * intros ->. exists k. split; [left | exact Ek].
      * intros H. destruct (IH H) as (k' & Hin & Hk'). exists k'.
        split; [now right | exact Hk'].
    + intros H. destruct (IH H) as (k' & Hin & Hk'). exists k'.
      split; [now right | exact Hk'].
Qed.

(** X27.  A map passes the selector test when it holds a non-blank string
    under at least one of the keys asked for, whichever it is and in
    whatever order the keys are asked; with no key asked, or on a map
    without pairs, the test fails. *)
Theorem any_selector_key_suffices (items : list Pair) (keys : list jsstring) :
  (hasAnyStringKey items keys = true
   ↔ ∃ key, key ∈ keys ∧ holdsNonBlankString items key)
  ∧ (∀ keys', keys' ≡ₚ keys →
       hasAnyStringKey items keys' = hasAnyStringKey items keys)
  ∧ hasAnyStringKey items [] = false
  ∧ hasAnyStringKey [] keys = false.
Proof.
  split; [apply hasAnyStringKey_spec|]. split; [|split; [reflexivity|]].
  - intros keys' Hperm.
    destruct (hasAnyStringKey items keys) eqn:E.
    + apply hasAnyStringKey_spec in E as (key & Hkey & Hh).
      apply hasAnyStringKey_spec. exists key. split; [now rewrite Hperm | exact Hh].
    + destruct (hasAnyStringKey items keys') eqn:E'; [|reflexivity].
      apply hasAnyStringKey_spec in E' as (key & Hkey & Hh).
      assert (hasAnyStringKey items keys = true); [|congruence].
      apply hasAnyStringKey_spec. exists key. split; [now rewrite <- Hperm | exact Hh].
  - induction keys as [|key rest IH]; [reflexivity|]. exact IH.
Qed.
